(** * Mangos: array and string helpers (src/mangos.h)

    A shallow embedding of the two classes of the header, [mangos::array]
    and [mangos::string], together with the part of [std::string] they call.

    Conventions.
    - A [std::string] is a [list ascii]; a [std::vector<std::string>] is a
      list of those; a fixed array [T (&arr)[size]] is a [list T] whose
      length is [size].
    - [size_t] is the unsigned 64-bit type and [int] the signed 32-bit type
      of an LP64 platform.  Values of both are carried in [Z]; every place
      where the C++ code converts or may wrap is written out with
      [size_wrap], [int_of_size] and [size_of_int].
    - A call either returns, aborts in [assert], or throws
      [std::out_of_range]; see [outcome].  [assert] is taken as compiled in
      (no NDEBUG).
    - The [while] loop of [split] is run with an explicit iteration budget;
      running out of it is an outcome of its own, never a result.
    - In quoted source lines <empty> stands for the empty string literal. *)

From Stdlib Require Import ZArith Ascii String.
From stdpp Require Import base tactics option list.

Local Open Scope Z_scope.

(** ** Outcomes *)

Inductive outcome (A : Type) : Type :=
  | Ret (a : A)
  | AssertionFailure
  | OutOfRange
  | OutOfFuel.

Arguments Ret {A} a.
Arguments AssertionFailure {A}.
Arguments OutOfRange {A}.
Arguments OutOfFuel {A}.

Global Instance outcome_ret : MRet outcome := @Ret.

Global Instance outcome_bind : MBind outcome := fun A B k m =>
  match m with
  | Ret a => k a
  | AssertionFailure => AssertionFailure
  | OutOfRange => OutOfRange
  | OutOfFuel => OutOfFuel
  end.

(** ** Machine integers *)

Definition SIZE_MAX : Z := 2 ^ 64 - 1.
Definition INT_MAX : Z := 2 ^ 31 - 1.

(** Arithmetic on [size_t] is modulo [2^64]. *)
Definition size_wrap (z : Z) : Z := z mod 2 ^ 64.

(** [int found = <size_t value>]: the low 32 bits, read as two's complement. *)
Definition int_of_size (z : Z) : Z := (z + 2 ^ 31) mod 2 ^ 32 - 2 ^ 31.

(** An [int] used where a [size_t] is expected. *)
Definition size_of_int (i : Z) : Z := i mod 2 ^ 64.

(** ** Texts *)

Abbreviation text := (list ascii).

Definition lit (s : String.string) : text := list_ascii_of_string s.
Arguments lit s%_string.

(** ** The part of [std::string] the header uses *)

Module std.

Definition npos : Z := SIZE_MAX.

(** [s.length()]. *)
Definition length (s : text) : Z := Z.of_nat (List.length s).

Definition pos_or_npos (o : option nat) : Z :=
  match o with
  | Some i => Z.of_nat i
  | None => npos
  end.

Definition mem (c : ascii) (set : text) : bool :=
  existsb (Ascii.eqb c) set.

Fixpoint starts_with (del s : text) : bool :=
  match del, s with
  | [], _ => true
  | _ :: _, [] => false
  | d :: del', c :: s' => Ascii.eqb d c && starts_with del' s'
  end.

(** Lowest position at which [del] occurs in [s] as a contiguous block. *)
Fixpoint index_of (del s : text) : option nat :=
  if starts_with del s then Some 0%nat
  else match s with
       | [] => None
       | _ :: s' => S <$> index_of del s'
       end.

(** Lowest position whose character satisfies [p]. *)
Fixpoint index_where (p : ascii -> bool) (s : text) : option nat :=
  match s with
  | [] => None
  | c :: s' => if p c then Some 0%nat else S <$> index_where p s'
  end.

(** Highest position whose character satisfies [p]. *)
Fixpoint last_index_where (p : ascii -> bool) (s : text) : option nat :=
  match s with
  | [] => None
  | c :: s' =>
      match last_index_where p s' with
      | Some i => Some (S i)
      | None => if p c then Some 0%nat else None
      end
  end.

(** [s.find(del)]. *)
Definition find (s del : text) : Z := pos_or_npos (index_of del s).

(** [s.find_first_of(set)]. *)
Definition find_first_of (s set : text) : Z :=
  pos_or_npos (index_where (fun c => mem c set) s).

(** [s.find_first_not_of(set)]. *)
Definition find_first_not_of (s set : text) : Z :=
  pos_or_npos (index_where (fun c => negb (mem c set)) s).

(** [s.find_last_not_of(set)]. *)
Definition find_last_not_of (s set : text) : Z :=
  pos_or_npos (last_index_where (fun c => negb (mem c set)) s).

(** [s.substr(pos, count)]: throws when [pos > s.size()], otherwise the
    characters [pos .. pos + min(count, size - pos)). *)
Definition substr (s : text) (pos count : Z) : outcome text :=
  if length s <? pos then OutOfRange
  else Ret (take (Z.to_nat (Z.min count (length s - pos)))
                 (drop (Z.to_nat pos) s)).

End std.

(** ** The header's constant *)

(** [#define __WHITESPACE__ " \t\n\r"]. *)
Definition WHITESPACE : text := [" "; "009"; "010"; "013"]%char.

(** ** class array *)

Module array.
Section array.
Context {T : Type}.

(** [get_length]: the static size of the array. *)
Definition get_length (arr : list T) : nat := List.length arr.

(** [std::swap(arr[i], arr[j])]. *)
Definition swap (arr : list T) (i j : nat) : list T :=
  match arr !! i, arr !! j with
  | Some x, Some y => <[j:=x]> (<[i:=y]> arr)
  | _, _ => arr
  end.

(** [reverse]: [for (n = 0; n < size / 2; n++) swap(arr[n], arr[size - n - 1])]. *)
Definition reverse (arr : list T) : list T :=
  let size := List.length arr in
  foldl (fun a n => swap a n (size - n - 1)) arr (seq 0 (size / 2)).

(** [transform]: [for (n = 0; n < size; n++) arr[n] = func(arr[n])]. *)
Definition transform (arr : list T) (func : T -> T) : list T :=
  let size := List.length arr in
  foldl (fun a n => match a !! n with
                    | Some x => <[n:=func x]> a
                    | None => a
                    end) arr (seq 0 size).

(** [to_vector]: a copy of the elements in order. *)
Definition to_vector (arr : list T) : list T := arr.

End array.
End array.

(** ** The part of <cctype> the header uses

    [::toupper] and [::tolower] take and return an [int]; the header calls
    them on a [char] and stores the result in a [char].  [char] is the
    signed 8-bit type of the platform.  The two functions are those of the
    "C" locale, which the C standard defines on the values of
    [unsigned char] and on EOF: a letter of the other case is mapped, every
    other value is returned as it is. *)

Module cctype.

(** A [char] passed where an [int] is expected. *)
Definition int_of_char (c : ascii) : Z :=
  let n := Z.of_nat (nat_of_ascii c) in
  if n <? 128 then n else n - 256.

(** An [int] stored in a [char]: the low 8 bits. *)
Definition char_of_int (i : Z) : ascii :=
  ascii_of_nat (Z.to_nat (i mod 256)).

Definition toupper (c : Z) : Z :=
  if (97 <=? c) && (c <=? 122) then c - 32 else c.

Definition tolower (c : Z) : Z :=
  if (65 <=? c) && (c <=? 90) then c + 32 else c.

End cctype.

(** ** class string *)

Module string.

(** [transform]: [for (n = 0; n < str.length(); n++) str[n] = func(str[n])],
    the loop of [array::transform] over the characters. *)
Definition transform (str : text) (func : ascii -> ascii) : text :=
  array.transform str func.

(** One iteration of the loop of [split], on the pair of the remaining
    [str] and the [tokens] collected so far:
    [int found = multiple ? str.find_first_of(del) : str.find(del);]
    [std::string token = found == -1 ? str : str.substr(0, found);]
    [str = found == -1 ? <empty> : str.substr(found + (multiple ?: del.length()));]
    [if (token.length()) tokens.push_back(token);]
    The search result is a [size_t] stored in an [int]; [found] goes back
    to [size_t] as the count of the first [substr] and in the sum of the
    second, where [multiple ?: del.length()] is 1 in set mode. *)
Definition split_step (del : text) (multiple : bool)
    (st : text * list text) : outcome (text * list text) :=
  let '(str, tokens) := st in
  let found :=
    int_of_size (if multiple then std.find_first_of str del
                 else std.find str del) in
  token ← (if found =? -1 then Ret str
           else std.substr str 0 (size_of_int found));
  str' ← (if found =? -1 then Ret []
          else std.substr str
                 (size_wrap (size_of_int found +
                             (if multiple then 1 else std.length del)))
                 std.npos);
  Ret (str', if std.length token =? 0 then tokens else tokens ++ [token]).

(** [while (str.length() > 0) { ... }], at most [fuel] iterations. *)
Fixpoint split_loop (fuel : nat) (del : text) (multiple : bool)
    (st : text * list text) : outcome (list text) :=
  if 0 <? std.length st.1 then
    match fuel with
    | O => OutOfFuel
    | S fuel' => st' ← split_step del multiple st;
                 split_loop fuel' del multiple st'
    end
  else Ret st.2.

(** [split(str, del, multiple)]:
    [REQUIRES(str.length() > 0); REQUIRES(del.length() > 0);] then the loop
    on an empty token vector. *)
Definition split (fuel : nat) (str del : text) (multiple : bool)
    : outcome (list text) :=
  if negb (0 <? std.length str) then AssertionFailure
  else if negb (0 <? std.length del) then AssertionFailure
  else split_loop fuel del multiple (str, []).

(** [join(list, sep)]:
    [for (n = 0; n < list.size(); n++)
       joined += list[n] + (n + 1 < list.size() ? sep : <empty>)]. *)
Definition join (list : list text) (sep : text) : text :=
  let size := List.length list in
  foldl (fun joined n =>
           joined ++ default [] (list !! n)
                  ++ (if (n + 1 <? size)%nat then sep else []))
        [] (seq 0 size).

(** [trim(str)]:
    [str = str.substr(str.find_first_not_of(__WHITESPACE__));]
    [str = str.substr(0, str.find_last_not_of(__WHITESPACE__) + 1);] *)
Definition trim (str : text) : outcome text :=
  str1 ← std.substr str (std.find_first_not_of str WHITESPACE) std.npos;
  std.substr str1 0
    (size_wrap (std.find_last_not_of str1 WHITESPACE + 1)).

(** [reverse(str)]: the loop of [array::reverse] over the characters. *)
Definition reverse (str : text) : text := array.reverse str.

(** The overload [template<size_t size> join(std::string arr[size], sep)]:
    [for (n = 0; n < size; n++) joined += arr[n] + (n + 1 < size ? sep : <empty>)].
    [arr] is a pointer and [size] comes from the caller; reading past the
    end of the array has no defined behaviour in C++, it reads as the empty
    text here, and the statements keep [size] within the array. *)
Definition join_array (size : nat) (arr : list text) (sep : text) : text :=
  foldl (fun joined n =>
           joined ++ default [] (arr !! n)
                  ++ (if (n + 1 <? size)%nat then sep else []))
        [] (seq 0 size).

(** [to_upper(str)]: [transform(str, ::toupper)], each character going
    through [int] and back. *)
Definition to_upper (str : text) : text :=
  transform str (fun c => cctype.char_of_int (cctype.toupper (cctype.int_of_char c))).

(** [to_lower(str)]: [transform(str, ::tolower)]. *)
Definition to_lower (str : text) : text :=
  transform str (fun c => cctype.char_of_int (cctype.tolower (cctype.int_of_char c))).

End string.

(** * Vocabulary of the statements *)

(** One iteration of [split], in terms of positions in the text:
    [next_match] is the position the search of the active mode reports,
    [consumed] the number of characters the cursor skips at a match, and
    [push] the conditional [push_back]. *)

Definition next_match (del : text) (multiple : bool) (str : text) : option nat :=
  if multiple then std.index_where (fun c => std.mem c del) str
  else std.index_of del str.

Definition consumed (del : text) (multiple : bool) : nat :=
  if multiple then 1%nat else List.length del.

Definition push (token : text) (tokens : list text) : list text :=
  match token with
  | [] => tokens
  | _ :: _ => tokens ++ [token]
  end.

(** The loop of [split] as a relation.
    [tokens_of del multiple str ts]: cutting [str] at successive matches
    and keeping the non-empty pieces gives [ts];
    [keep] puts a non-empty piece in front of the later ones. *)

Definition keep (token : text) (tokens : list text) : list text :=
  match token with
  | [] => tokens
  | _ :: _ => token :: tokens
  end.

Inductive tokens_of (del : text) (multiple : bool) : text -> list text -> Prop :=
  | tokens_done :
      tokens_of del multiple [] []
  | tokens_rest str :
      str <> [] ->
      next_match del multiple str = None ->
      tokens_of del multiple str [str]
  | tokens_cut str p ts :
      str <> [] ->
      next_match del multiple str = Some p ->
      tokens_of del multiple (drop (p + consumed del multiple) str) ts ->
      tokens_of del multiple str (keep (take p str) ts).

(** The specification's wording of the set mode: the text is cut at every
    character that belongs to the set, and the non-empty pieces are kept.
    [cur] is the piece being read. *)
Fixpoint fields (set str cur : text) : list text :=
  match str with
  | [] => keep cur []
  | c :: str' =>
      if std.mem c set then keep cur (fields set str' [])
      else fields set str' (cur ++ [c])
  end.

(** The delimiter occurs in the text, as the active mode understands it:
    some character of the set, or the delimiter as a contiguous block. *)
Definition occurs (del : text) (multiple : bool) (str : text) : Prop :=
  if multiple then exists c, c ∈ str /\ c ∈ del
  else exists pre post, str = pre ++ del ++ post.

(** The text is made of delimiters only: every character is in the set,
    or the text is some number of copies of the delimiter. *)
Definition only_delimiters (del : text) (multiple : bool) (str : text) : Prop :=
  if multiple then forall c, c ∈ str -> c ∈ del
  else exists n, str = concat (replicate n del).

(** The specification's wording of [join]: the tokens in order, one copy
    of the separator between each adjacent pair, none at either end. *)
Fixpoint join_spec (tokens : list text) (sep : text) : text :=
  match tokens with
  | [] => []
  | t :: rest =>
      match rest with
      | [] => t
      | _ :: _ => t ++ sep ++ join_spec rest sep
      end
  end.

(** A character outside the whitespace set. *)
Definition not_blank (c : ascii) : bool := negb (std.mem c WHITESPACE).

(** The array after the first [k] iterations of the loop of
    [array::reverse]. *)
Definition reverse_upto {T : Type} (arr : list T) (k : nat) : list T :=
  foldl (fun a n => array.swap a n (List.length arr - n - 1)) arr (seq 0 k).

(** Characters of the 7-bit range, on which [toupper] and [tolower] are
    defined whatever the signedness of [char]; lower-case and upper-case
    letters. *)
Definition seven_bit (str : text) : Prop :=
  forallb (fun c => (nat_of_ascii c <? 128)%nat) str = true.

Definition is_lower (c : ascii) : bool :=
  ((97 <=? nat_of_ascii c) && (nat_of_ascii c <=? 122))%nat.

Definition is_upper (c : ascii) : bool :=
  ((65 <=? nat_of_ascii c) && (nat_of_ascii c <=? 90))%nat.

(** What [to_upper] and [to_lower] do to one character. *)
Definition upper_char (c : ascii) : ascii :=
  cctype.char_of_int (cctype.toupper (cctype.int_of_char c)).

Definition lower_char (c : ascii) : ascii :=
  cctype.char_of_int (cctype.tolower (cctype.int_of_char c)).

(** The text is a contiguous piece of another. *)
Definition piece_of (t str : text) : Prop :=
  exists a b, str = a ++ t ++ b.

(** Sum of the lengths of the tokens. *)
Definition total_length (tokens : list text) : nat :=
  foldr (fun t n => (List.length t + n)%nat) 0%nat tokens.

(** Linear arithmetic over the named bounds. *)
Ltac zlia := unfold std.length, std.npos, INT_MAX, SIZE_MAX in *; simpl in *; lia.

(** A statement about one character, checked on each of the 256. *)
Ltac by_cases_on_char c :=
  destruct c as [[] [] [] [] [] [] [] []]; vm_compute; try reflexivity; try discriminate.

(** * Properties *)

(** ** Machine integers *)

Lemma int_of_size_small z : 0 <= z <= INT_MAX -> int_of_size z = z.
Proof.
  unfold int_of_size, INT_MAX. intros Hz.
  rewrite Z.mod_small; lia.
Qed.

Lemma int_of_size_npos : int_of_size std.npos = -1.
Proof. reflexivity. Qed.

(** Past [INT_MAX] the conversion is no longer exact: a match at position
    [2^32 - 1] reads as the not-found value.  A statement about [split]
    that needs matches within [INT_MAX] says so; what the loop does past it
    is worked out at the end of the file. *)
Lemma int_of_size_truncates : int_of_size (2 ^ 32 - 1) = -1.
Proof. reflexivity. Qed.

Lemma size_of_int_small i : 0 <= i <= SIZE_MAX -> size_of_int i = i.
Proof. unfold size_of_int, SIZE_MAX. intros Hi. rewrite Z.mod_small; lia. Qed.

Lemma size_wrap_small z : 0 <= z <= SIZE_MAX -> size_wrap z = z.
Proof. unfold size_wrap, SIZE_MAX. intros Hz. rewrite Z.mod_small; lia. Qed.

Lemma size_wrap_npos_succ : size_wrap (std.npos + 1) = 0.
Proof. reflexivity. Qed.

Lemma INT_MAX_le_SIZE_MAX : INT_MAX <= SIZE_MAX.
Proof. unfold INT_MAX, SIZE_MAX. lia. Qed.

(** ** Searching *)

Lemma mem_spec c set : std.mem c set = true <-> c ∈ set.
Proof.
  unfold std.mem. rewrite existsb_exists. split.
  - intros (x & Hx & Heq). apply Ascii.eqb_eq in Heq. subst.
    by apply list_elem_of_In.
  - intros Hc. exists c. split; [by apply list_elem_of_In | apply Ascii.eqb_refl].
Qed.

Lemma mem_false c set : std.mem c set = false <-> c ∉ set.
Proof.
  rewrite <- mem_spec. destruct (std.mem c set); split; congruence.
Qed.

Lemma mem_singleton c d : std.mem c [d] = Ascii.eqb d c.
Proof. simpl. rewrite orb_false_r. apply Ascii.eqb_sym. Qed.

Lemma starts_with_spec del s :
  std.starts_with del s = true <-> del `prefix_of` s.
Proof.
  revert s. induction del as [|d del IH]; intros s; simpl.
  - split; [intros _; apply prefix_nil | done].
  - destruct s as [|c s].
    + split; [done | intros [k Hk]; discriminate].
    + rewrite andb_true_iff, Ascii.eqb_eq, IH. split.
      * intros [-> Hp]. by apply prefix_cons.
      * intros [k Hk]. injection Hk as -> ->. split; [done | by exists k].
Qed.

Lemma starts_with_false del s :
  std.starts_with del s = false <-> ¬ del `prefix_of` s.
Proof.
  rewrite <- starts_with_spec. destruct (std.starts_with del s); split; congruence.
Qed.

Lemma index_of_Some del s p :
  std.index_of del s = Some p ->
  del `prefix_of` drop p s /\ (p <= List.length s)%nat /\
  forall q, (q < p)%nat -> ¬ del `prefix_of` drop q s.
Proof.
  revert p. induction s as [|c s IH]; intros p; simpl.
  - destruct del as [|d del]; simpl; [|done].
    intros [= <-]. split; [done|]. split; [done | lia].
  - destruct (std.starts_with del (c :: s)) eqn:Hsw.
    + intros [= <-]. apply starts_with_spec in Hsw.
      split; [done|]. split; simpl; lia.
    + destruct (std.index_of del s) as [p'|] eqn:Hi; simpl; [|done].
      intros [= <-]. destruct (IH p' eq_refl) as (Hp & Hle & Hmin).
      split; [done|]. split; [simpl; lia|].
      intros [|q] Hq; simpl.
      * by apply starts_with_false.
      * apply Hmin. lia.
Qed.

Lemma index_of_None del s q :
  std.index_of del s = None -> ¬ del `prefix_of` drop q s.
Proof.
  revert q. induction s as [|c s IH]; intros q; simpl.
  - destruct del as [|d del]; simpl; [done|].
    intros _. rewrite drop_nil. intros [k Hk]. discriminate.
  - destruct (std.starts_with del (c :: s)) eqn:Hsw; [done|].
    destruct (std.index_of del s) eqn:Hi; simpl; [done|].
    intros _. destruct q as [|q]; simpl.
    + by apply starts_with_false.
    + by apply IH.
Qed.

Lemma index_of_prefix del s :
  del `prefix_of` s -> std.index_of del s = Some 0%nat.
Proof.
  intros Hp. apply starts_with_spec in Hp.
  destruct s; simpl in *; by rewrite Hp.
Qed.

Lemma index_where_Some p s i :
  std.index_where p s = Some i ->
  (exists c, s !! i = Some c /\ p c = true) /\
  forall x, x ∈ take i s -> p x = false.
Proof.
  revert i. induction s as [|c s IH]; intros i; simpl; [done|].
  destruct (p c) eqn:Hc.
  - intros [= <-]. split; [by exists c|]. simpl. by intros x ?%elem_of_nil.
  - destruct (std.index_where p s) as [i'|] eqn:Hi; simpl; [|done].
    intros [= <-]. destruct (IH i' eq_refl) as (Hex & Hpre).
    split; [done|]. simpl. intros x [->|Hx]%elem_of_cons; auto.
Qed.

Lemma index_where_None p s :
  std.index_where p s = None <-> forall x, x ∈ s -> p x = false.
Proof.
  induction s as [|c s IH]; simpl.
  - split; [by intros _ x ?%elem_of_nil | done].
  - destruct (p c) eqn:Hc.
    + split; [done|]. intros H. specialize (H c (list_elem_of_here _ _)). congruence.
    + destruct (std.index_where p s) eqn:Hi; simpl.
      * split; [done|]. intros H.
        assert (Some n = None) as Hn; [|done].
        apply IH. intros x Hx. apply H. by right.
      * split; [|done]. intros _ x [->|Hx]%elem_of_cons; [done|]. by apply IH.
Qed.

Lemma last_index_where_None p s :
  std.last_index_where p s = None <-> forall x, x ∈ s -> p x = false.
Proof.
  induction s as [|c s IH]; simpl.
  - split; [by intros _ x ?%elem_of_nil | done].
  - destruct (std.last_index_where p s) eqn:Hi.
    + split; [done|]. intros H.
      assert (Some n = None) as Hn; [|done].
      apply IH. intros x Hx. apply H. by right.
    + destruct (p c) eqn:Hc.
      * split; [done|]. intros H. specialize (H c (list_elem_of_here _ _)). congruence.
      * split; [|done]. intros _ x [->|Hx]%elem_of_cons; [done|]. by apply IH.
Qed.

Lemma last_index_where_Some p s i :
  std.last_index_where p s = Some i ->
  (exists c, s !! i = Some c /\ p c = true) /\
  forall x, x ∈ drop (S i) s -> p x = false.
Proof.
  revert i. induction s as [|c s IH]; intros i; simpl; [done|].
  destruct (std.last_index_where p s) as [i'|] eqn:Hi.
  - intros [= <-]. by apply IH.
  - destruct (p c) eqn:Hc; [|done].
    intros [= <-]. split; [by exists c|]. simpl. rewrite drop_0.
    by apply last_index_where_None.
Qed.

(** ** substr *)

Lemma length_nonneg (s : text) : 0 <= std.length s.
Proof. unfold std.length. lia. Qed.

Lemma length_zero (s : text) : std.length s = 0 <-> s = [].
Proof. unfold std.length. destruct s; simpl; split; (done || lia). Qed.

Lemma substr_prefix (s : text) (n : nat) :
  (n <= List.length s)%nat ->
  std.substr s 0 (Z.of_nat n) = Ret (take n s).
Proof.
  intros Hn. unfold std.substr, std.length.
  destruct (Z.ltb_spec (Z.of_nat (List.length s)) 0) as [?|_]; [lia|].
  simpl. rewrite drop_0. do 2 f_equal. lia.
Qed.

Lemma substr_suffix (s : text) (n : nat) :
  std.length s <= SIZE_MAX ->
  (n <= List.length s)%nat ->
  std.substr s (Z.of_nat n) std.npos = Ret (drop n s).
Proof.
  intros Hs Hn. unfold std.substr, std.length, std.npos in *.
  destruct (Z.ltb_spec (Z.of_nat (List.length s)) (Z.of_nat n)) as [?|_]; [lia|].
  rewrite Nat2Z.id. f_equal. apply take_ge. rewrite length_drop. lia.
Qed.

Lemma substr_npos_throws (s : text) :
  std.length s < std.npos -> std.substr s std.npos std.npos = OutOfRange.
Proof.
  intros Hs. unfold std.substr.
  by destruct (Z.ltb_spec (std.length s) std.npos) as [_|?]; [|lia].
Qed.

(** ** One iteration of split, in terms of positions in the text *)

Lemma next_match_bound del multiple str p :
  next_match del multiple str = Some p ->
  (p + consumed del multiple <= List.length str)%nat.
Proof.
  destruct multiple; simpl.
  - intros ([c [Hc _]] & _)%index_where_Some.
    apply lookup_lt_Some in Hc. lia.
  - intros ([k Hk] & Hle & _)%index_of_Some.
    apply (f_equal List.length) in Hk.
    rewrite length_drop, length_app in Hk. lia.
Qed.

Lemma consumed_pos del multiple : del <> [] -> (0 < consumed del multiple)%nat.
Proof. destruct multiple, del; simpl; (done || lia). Qed.

Lemma split_step_spec del multiple str tokens :
  std.length str <= INT_MAX ->
  string.split_step del multiple (str, tokens) =
  Ret (match next_match del multiple str with
       | None => ([], push str tokens)
       | Some p => (drop (p + consumed del multiple) str,
                    push (take p str) tokens)
       end).
Proof.
  intros Hlen. pose proof INT_MAX_le_SIZE_MAX as HM.
  assert (forall t, (if std.length t =? 0 then tokens else tokens ++ [t])
                    = push t tokens) as Hpush.
  { intros [|c t]; [done|]. unfold std.length. simpl.
    by destruct (Z.eqb_spec (Z.of_nat (S (List.length t))) 0) as [?|_]; [lia|]. }
  unfold string.split_step.
  replace (if multiple then std.find_first_of str del else std.find str del)
    with (std.pos_or_npos (next_match del multiple str))
    by by destruct multiple.
  destruct (next_match del multiple str) as [p|] eqn:Hm; cbn [std.pos_or_npos].
  - apply next_match_bound in Hm.
    rewrite int_of_size_small by zlia.
    destruct (Z.eqb_spec (Z.of_nat p) (-1)) as [?|_]; [lia|].
    rewrite (size_of_int_small (Z.of_nat p)) by zlia.
    rewrite substr_prefix by lia. simpl.
    replace (Z.of_nat p + (if multiple then 1 else std.length del))
      with (Z.of_nat (p + consumed del multiple))
      by (destruct multiple; zlia).
    rewrite size_wrap_small by zlia.
    rewrite substr_suffix by zlia. simpl.
    by rewrite Hpush.
  - rewrite int_of_size_npos. simpl. by rewrite Hpush.
Qed.

(** ** The loop of split *)

Lemma push_keep token acc ts : push token acc ++ ts = acc ++ keep token ts.
Proof. destruct token; simpl; [done|]. by rewrite <- app_assoc. Qed.

Lemma tokens_of_det del multiple str ts1 ts2 :
  tokens_of del multiple str ts1 -> tokens_of del multiple str ts2 -> ts1 = ts2.
Proof.
  intros H1. revert ts2.
  induction H1 as [|str Hne Hm|str p ts Hne Hm Hrest IH]; intros ts2 H2;
    inversion H2; subst; try congruence.
  assert (p0 = p) as -> by congruence. f_equal. by apply IH.
Qed.

Lemma split_loop_nil fuel del multiple acc :
  string.split_loop fuel del multiple ([], acc) = Ret acc.
Proof. by destruct fuel. Qed.

Lemma split_loop_cons fuel del multiple str acc :
  str <> [] ->
  string.split_loop (S fuel) del multiple (str, acc) =
  string.split_step del multiple (str, acc) ≫= string.split_loop fuel del multiple.
Proof.
  intros Hne. simpl.
  destruct (Z.ltb_spec 0 (std.length str)) as [_|Hle]; [done|].
  destruct str; [done | zlia].
Qed.

Lemma split_loop_spec del multiple :
  del <> [] ->
  forall fuel str,
    std.length str <= INT_MAX ->
    (List.length str <= fuel)%nat ->
    exists ts, tokens_of del multiple str ts /\
      forall acc, string.split_loop fuel del multiple (str, acc) = Ret (acc ++ ts).
Proof.
  intros Hdel. induction fuel as [|fuel IH]; intros str Hlen Hfuel.
  - destruct str; [|simpl in Hfuel; lia].
    exists []. split; [constructor|]. intros acc. by rewrite app_nil_r.
  - destruct (decide (str = [])) as [->|Hne].
    { exists []. split; [constructor|]. intros acc.
      by rewrite split_loop_nil, app_nil_r. }
    destruct (next_match del multiple str) as [p|] eqn:Hm.
    + pose proof (next_match_bound _ _ _ _ Hm) as Hb.
      pose proof (consumed_pos del multiple Hdel) as Hc.
      destruct (IH (drop (p + consumed del multiple) str)) as (ts & Hts & Hrun).
      { unfold std.length in *. rewrite length_drop. lia. }
      { rewrite length_drop. lia. }
      exists (keep (take p str) ts). split; [by econstructor|].
      intros acc. rewrite split_loop_cons, split_step_spec, Hm by done.
      simpl. by rewrite Hrun, push_keep.
    + exists [str]. split; [by constructor|].
      intros acc. rewrite split_loop_cons, split_step_spec, Hm by done.
      simpl. rewrite split_loop_nil. by destruct str.
Qed.

Lemma split_unfold fuel str del multiple :
  str <> [] -> del <> [] ->
  string.split fuel str del multiple = string.split_loop fuel del multiple (str, []).
Proof.
  intros Hs Hd. unfold string.split.
  destruct (Z.ltb_spec 0 (std.length str)) as [_|?]; [|destruct str; [done|zlia]].
  destruct (Z.ltb_spec 0 (std.length del)) as [_|?]; [|destruct del; [done|zlia]].
  done.
Qed.

Lemma split_spec fuel str del multiple :
  str <> [] -> del <> [] ->
  std.length str <= INT_MAX ->
  (List.length str <= fuel)%nat ->
  exists ts, tokens_of del multiple str ts /\
             string.split fuel str del multiple = Ret ts.
Proof.
  intros Hs Hd Hlen Hfuel.
  destruct (split_loop_spec del multiple Hd fuel str Hlen Hfuel) as (ts & Hts & Hrun).
  exists ts. split; [done|]. by rewrite split_unfold, Hrun.
Qed.

Lemma substr_no_abort (s : text) pos count :
  std.substr s pos count <> AssertionFailure /\
  std.substr s pos count <> OutOfFuel.
Proof. unfold std.substr. by destruct (std.length s <? pos). Qed.

Lemma split_step_no_abort del multiple st :
  string.split_step del multiple st <> AssertionFailure /\
  string.split_step del multiple st <> OutOfFuel.
Proof.
  destruct st as [str tokens]. unfold string.split_step, std.substr.
  set (found := int_of_size _).
  destruct (found =? -1); simpl; [done|].
  destruct (std.length str <? 0); simpl; [done|].
  by destruct (std.length str <? _).
Qed.

Lemma split_loop_no_abort fuel del multiple st :
  string.split_loop fuel del multiple st <> AssertionFailure.
Proof.
  revert st. induction fuel as [|fuel IH]; intros st; simpl.
  - by destruct (0 <? std.length st.1).
  - destruct (0 <? std.length st.1); [|done].
    pose proof (split_step_no_abort del multiple st) as [? ?].
    destruct (string.split_step del multiple st); simpl; first [done | apply IH].
Qed.

(** C4: [split] on an empty text or with an empty delimiter stops in the
    assertion (it returns nothing); with both non-empty no assertion fires,
    whatever the mode and the iteration budget. *)
Theorem split_precondition fuel str del multiple :
  (str = [] \/ del = [] ->
   string.split fuel str del multiple = AssertionFailure) /\
  (str <> [] -> del <> [] ->
   string.split fuel str del multiple <> AssertionFailure).
Proof.
  split.
  - intros [-> | ->]; unfold string.split; simpl; [done|].
    by destruct (0 <? std.length str).
  - intros Hs Hd. rewrite split_unfold by done. apply split_loop_no_abort.
Qed.

Lemma split_precondition_witness :
  string.split 3 [] (lit ",") false = AssertionFailure /\
  string.split 3 (lit "a,b") [] true = AssertionFailure /\
  string.split 3 (lit "a,b") (lit ",") false <> AssertionFailure.
Proof.
  split; [|split].
  - apply (proj1 (split_precondition 3 [] (lit ",") false)). by left.
  - apply (proj1 (split_precondition 3 (lit "a,b") [] true)). by right.
  - apply (proj2 (split_precondition 3 (lit "a,b") (lit ",") false)); discriminate.
Defined.



(** ** The two modes on a one-character delimiter *)

Lemma index_singleton str d :
  std.index_where (fun c => std.mem c [d]) str = std.index_of [d] str.
Proof.
  induction str as [|c str IH]; [done|].
  cbn [std.index_where std.index_of std.starts_with].
  rewrite mem_singleton, andb_true_r.
  destruct (Ascii.eqb d c); [done|]. by rewrite IH.
Qed.

Lemma split_step_singleton d st :
  string.split_step [d] true st = string.split_step [d] false st.
Proof.
  destruct st as [str tokens]. unfold string.split_step.
  unfold std.find_first_of, std.find. by rewrite index_singleton.
Qed.

Lemma split_loop_singleton fuel d st :
  string.split_loop fuel [d] true st = string.split_loop fuel [d] false st.
Proof.
  revert st. induction fuel as [|fuel IH]; intros st; [done|].
  simpl. rewrite split_step_singleton.
  destruct (0 <? std.length st.1); [|done].
  destruct (string.split_step [d] false st); simpl; [apply IH | done..].
Qed.

(** C9: with a delimiter of exactly one character the set mode and the
    literal mode give the same outcome on every non-empty text, and that
    outcome is a token list once the budget covers the text. *)
Theorem split_single_char_modes fuel str d :
  str <> [] ->
  string.split fuel str [d] true = string.split fuel str [d] false /\
  (std.length str <= INT_MAX -> (List.length str <= fuel)%nat ->
   exists ts, string.split fuel str [d] true = Ret ts /\
              string.split fuel str [d] false = Ret ts).
Proof.
  intros Hs.
  assert (string.split fuel str [d] true = string.split fuel str [d] false) as Heq.
  { rewrite !split_unfold by done. apply split_loop_singleton. }
  split; [done|]. intros Hlen Hfuel.
  destruct (split_spec fuel str [d] false) as (ts & _ & Hrun); try done.
  exists ts. by rewrite Heq.
Qed.

Lemma split_single_char_modes_witness :
  string.split 5 (lit "a,b,c") (lit ",") true =
  string.split 5 (lit "a,b,c") (lit ",") false /\
  exists ts, string.split 5 (lit "a,b,c") (lit ",") true = Ret ts /\
             string.split 5 (lit "a,b,c") (lit ",") false = Ret ts.
Proof.
  pose proof (split_single_char_modes 5 (lit "a,b,c") ","%char) as H.
  destruct H as [Heq Hret]; [discriminate|].
  split; [exact Heq|]. apply Hret.
  - vm_compute. discriminate.
  - simpl. lia.
Defined.

(** ** Set mode *)

Lemma index_where_app p pre c post :
  (forall x, x ∈ pre -> p x = false) -> p c = true ->
  std.index_where p (pre ++ c :: post) = Some (List.length pre).
Proof.
  intros Hpre Hc. induction pre as [|x pre IH]; simpl.
  - by rewrite Hc.
  - rewrite (Hpre x) by left. rewrite IH; [done|].
    intros y Hy. apply Hpre. by right.
Qed.

Lemma fields_cut set pre c post cur :
  (forall x, x ∈ pre -> x ∉ set) -> c ∈ set ->
  fields set (pre ++ c :: post) cur = keep (cur ++ pre) (fields set post []).
Proof.
  intros Hpre Hc. revert cur. induction pre as [|x pre IH]; intros cur; simpl.
  - by rewrite (proj2 (mem_spec c set)), app_nil_r.
  - rewrite (proj2 (mem_false x set)) by (apply Hpre; by left).
    rewrite IH by (intros y Hy; apply Hpre; by right).
    by rewrite <- app_assoc.
Qed.

Lemma fields_rest set str cur :
  (forall x, x ∈ str -> x ∉ set) -> fields set str cur = keep (cur ++ str) [].
Proof.
  revert cur. induction str as [|x str IH]; intros cur Hall; simpl.
  - by rewrite app_nil_r.
  - rewrite (proj2 (mem_false x set)) by (apply Hall; by left).
    rewrite IH by (intros y Hy; apply Hall; by right).
    by rewrite <- app_assoc.
Qed.

Lemma tokens_of_fields del str ts :
  tokens_of del true str ts -> ts = fields del str [].
Proof.
  induction 1 as [|str Hne Hm|str p ts Hne Hm Hrest IH].
  - done.
  - simpl in Hm. rewrite index_where_None in Hm.
    rewrite fields_rest by (intros x Hx; by apply mem_false, Hm).
    by destruct str.
  - simpl in Hm. apply index_where_Some in Hm as ([c [Hc Hin]] & Hpre).
    rewrite <- (take_drop_middle str p c Hc) at 2.
    rewrite fields_cut.
    + simpl in IH. rewrite IH. by replace (p + 1)%nat with (S p) by lia.
    + intros x Hx. by apply mem_false, Hpre.
    + by apply mem_spec.
Qed.

(** X21: in set mode one iteration ends the token at the first character
    of the text that belongs to the delimiter and resumes right after that
    one character, whatever the length of the delimiter; without such a
    character the whole remainder is the last token.  The call as a whole
    returns the non-empty pieces between characters of the set, and on the
    text of the specification the three words.  Texts are those of at most
    [INT_MAX] characters, whose positions the [int] of the loop holds
    exactly. *)
Theorem split_set_mode del str tokens :
  del <> [] -> std.length str <= INT_MAX ->
  (forall pre c post,
     str = pre ++ c :: post -> c ∈ del -> (forall x, x ∈ pre -> x ∉ del) ->
     string.split_step del true (str, tokens) = Ret (post, push pre tokens) /\
     forall fuel,
       string.split_loop (S fuel) del true (str, tokens) =
       string.split_loop fuel del true (post, push pre tokens)) /\
  (str <> [] -> (forall x, x ∈ str -> x ∉ del) ->
     string.split_step del true (str, tokens) = Ret ([], tokens ++ [str])) /\
  (str <> [] -> forall fuel, (List.length str <= fuel)%nat ->
     string.split fuel str del true = Ret (fields del str [])) /\
  (forall fuel, (6 <= fuel)%nat ->
     string.split fuel (lit "a b  c") (lit " ") true =
     Ret [lit "a"; lit "b"; lit "c"]).
Proof.
  intros Hd Hlen. split; [|split; [|split]].
  - intros pre c post -> Hc Hpre.
    assert (string.split_step del true (pre ++ c :: post, tokens) =
            Ret (post, push pre tokens)) as Hstep.
    { rewrite split_step_spec by done. simpl.
      rewrite index_where_app.
      - rewrite take_app_length, drop_app_ge by lia.
        by replace (List.length pre + 1 - List.length pre)%nat with 1%nat by lia.
      - intros x Hx. by apply mem_false, Hpre.
      - by apply mem_spec. }
    split; [done|]. intros fuel.
    rewrite split_loop_cons by (by destruct pre). by rewrite Hstep.
  - intros Hs Hnone. rewrite split_step_spec by done. simpl.
    replace (std.index_where (fun c => std.mem c del) str) with (@None nat).
    + by destruct str.
    + symmetry. apply index_where_None. intros x Hx. by apply mem_false, Hnone.
  - intros Hs fuel Hfuel.
    destruct (split_spec fuel str del true Hs Hd Hlen Hfuel) as (ts & Hts & ->).
    by rewrite (tokens_of_fields del str ts).
  - intros fuel Hfuel.
    do 6 (destruct fuel as [|fuel]; [lia|]). reflexivity.
Qed.

Lemma split_set_mode_witness :
  string.split_step (lit ",;") true (lit "ab;cd", []) = Ret (lit "cd", [lit "ab"]) /\
  string.split 5 (lit "ab;cd") (lit ",;") true = Ret (fields (lit ",;") (lit "ab;cd") []).
Proof.
  pose proof (split_set_mode (lit ",;") (lit "ab;cd") []) as H.
  destruct H as (Hcut & _ & Hall & _).
  - discriminate.
  - vm_compute. discriminate.
  - split.
    + refine (proj1 (Hcut (lit "ab") ";"%char (lit "cd") eq_refl _ _)).
      * apply mem_spec. reflexivity.
      * intros x Hx. apply mem_false.
        apply mem_spec in Hx. revert Hx. simpl.
        destruct (Ascii.eqb x "a") eqn:Ha; [apply Ascii.eqb_eq in Ha; by subst|].
        destruct (Ascii.eqb x "b") eqn:Hb; [apply Ascii.eqb_eq in Hb; by subst|].
        done.
    + apply Hall; [discriminate | simpl; lia].
Defined.

(** ** Tokens of split *)

Lemma tokens_of_nonempty del multiple str ts :
  tokens_of del multiple str ts -> Forall (fun t => t <> []) ts.
Proof.
  induction 1 as [|str Hne Hm|str p ts Hne Hm Hrest IH].
  - constructor.
  - by repeat constructor.
  - destruct (take p str) eqn:Ht; simpl; [done|]. by constructor.
Qed.

Lemma next_match_occurs del multiple str p :
  next_match del multiple str = Some p -> occurs del multiple str.
Proof.
  destruct multiple; simpl.
  - intros ([c [Hc Hin]] & _)%index_where_Some.
    exists c. split; [by eapply list_elem_of_lookup_2 | by apply mem_spec].
  - intros ([k Hk] & _ & _)%index_of_Some.
    exists (take p str), k. by rewrite <- Hk, take_drop.
Qed.

Lemma only_delimiters_match del multiple str :
  del <> [] -> str <> [] -> only_delimiters del multiple str ->
  next_match del multiple str = Some 0%nat /\
  only_delimiters del multiple (drop (consumed del multiple) str).
Proof.
  intros Hd Hs. destruct multiple; simpl.
  - intros Hall. destruct str as [|c str]; [done|]. split.
    + simpl. replace (std.mem c del) with true; [done|].
      symmetry. apply mem_spec, Hall. by left.
    + simpl. rewrite drop_0. intros x Hx. apply Hall. by right.
  - intros [[|n] ->]; [done|]. simpl. split.
    + apply index_of_prefix. by eexists.
    + exists n. by rewrite drop_app_length.
Qed.

Lemma tokens_of_only_delimiters del multiple str ts :
  del <> [] ->
  tokens_of del multiple str ts -> only_delimiters del multiple str -> ts = [].
Proof.
  intros Hd. induction 1 as [|str Hne Hm|str p ts Hne Hm Hrest IH]; intros Hall.
  - done.
  - destruct (only_delimiters_match del multiple str) as [? _]; congruence.
  - destruct (only_delimiters_match del multiple str) as [H0 Hrec]; try done.
    assert (p = 0%nat) as -> by congruence.
    rewrite take_0. simpl in *. by apply IH.
Qed.

(** *** One iteration, with no more than the match position in [int] range *)

Lemma push_test (token : text) (tokens : list text) :
  (if std.length token =? 0 then tokens else tokens ++ [token]) = push token tokens.
Proof.
  destruct token as [|c t]; [done|]. unfold std.length. simpl.
  by destruct (Z.eqb_spec (Z.of_nat (S (List.length t))) 0) as [?|_]; [lia|].
Qed.

Lemma split_step_none del multiple str tokens :
  next_match del multiple str = None ->
  string.split_step del multiple (str, tokens) = Ret ([], push str tokens).
Proof.
  intros Hm. unfold string.split_step.
  replace (if multiple then std.find_first_of str del else std.find str del)
    with (std.pos_or_npos (next_match del multiple str))
    by by destruct multiple.
  rewrite Hm. cbn [std.pos_or_npos]. rewrite int_of_size_npos. simpl.
  by rewrite push_test.
Qed.

Lemma split_step_at del multiple str tokens p :
  std.length str < std.npos ->
  next_match del multiple str = Some p ->
  Z.of_nat p <= INT_MAX ->
  string.split_step del multiple (str, tokens) =
  Ret (drop (p + consumed del multiple) str, push (take p str) tokens).
Proof.
  intros Hlen Hm Hp. unfold string.split_step.
  replace (if multiple then std.find_first_of str del else std.find str del)
    with (std.pos_or_npos (next_match del multiple str))
    by by destruct multiple.
  rewrite Hm. cbn [std.pos_or_npos].
  apply next_match_bound in Hm.
  rewrite int_of_size_small by zlia.
  destruct (Z.eqb_spec (Z.of_nat p) (-1)) as [?|_]; [lia|].
  rewrite (size_of_int_small (Z.of_nat p)) by zlia.
  rewrite substr_prefix by lia. simpl.
  replace (Z.of_nat p + (if multiple then 1 else std.length del))
    with (Z.of_nat (p + consumed del multiple))
    by (destruct multiple; zlia).
  rewrite size_wrap_small by zlia.
  rewrite substr_suffix by zlia. simpl.
  by rewrite push_test.
Qed.

Lemma split_step_keeps_nonempty del multiple st str' tokens' :
  string.split_step del multiple st = Ret (str', tokens') ->
  Forall (fun t => t <> []) st.2 -> Forall (fun t => t <> []) tokens'.
Proof.
  destruct st as [str tokens]. unfold string.split_step, std.substr.
  set (found := int_of_size _). intros Hrun Hall.
  assert (forall token, Forall (fun t => t <> []) (push token tokens)) as Hpush.
  { intros [|c t]; [done|]. apply Forall_app. by repeat constructor. }
  destruct (found =? -1); simpl in Hrun.
  - injection Hrun as <- <-. rewrite push_test. apply Hpush.
  - destruct (std.length str <? 0); simpl in Hrun; [done|].
    destruct (std.length str <? _); simpl in Hrun; [done|].
    injection Hrun as <- <-. rewrite push_test. apply Hpush.
Qed.

Lemma split_loop_keeps_nonempty del multiple fuel st ts :
  string.split_loop fuel del multiple st = Ret ts ->
  Forall (fun t => t <> []) st.2 -> Forall (fun t => t <> []) ts.
Proof.
  revert st. induction fuel as [|fuel IH]; intros st; simpl.
  - destruct (0 <? std.length st.1); [done|]. by intros [= <-].
  - destruct (0 <? std.length st.1); [|by intros [= <-]].
    destruct (string.split_step del multiple st) as [[str' tokens']| | |] eqn:Hstep;
      simpl; try done.
    intros Hrun Hall. apply (IH _ Hrun). simpl.
    by eapply split_step_keeps_nonempty.
Qed.

Lemma split_loop_only_delimiters del multiple :
  del <> [] ->
  forall fuel str acc,
    std.length str < std.npos ->
    only_delimiters del multiple str ->
    (List.length str <= fuel)%nat ->
    string.split_loop fuel del multiple (str, acc) = Ret acc.
Proof.
  intros Hd. induction fuel as [|fuel IH]; intros str acc Hlen Hall Hfuel.
  - destruct str; [done | simpl in Hfuel; lia].
  - destruct (decide (str = [])) as [->|Hs]; [apply split_loop_nil|].
    destruct (only_delimiters_match del multiple str Hd Hs Hall) as [Hm Hrest].
    pose proof (next_match_bound _ _ _ _ Hm) as Hb.
    pose proof (consumed_pos del multiple Hd) as Hc.
    rewrite split_loop_cons by done.
    rewrite (split_step_at del multiple str acc 0) by (done || zlia).
    rewrite take_0. cbn [mbind outcome_bind push]. apply IH; try done.
    + unfold std.length in *. rewrite length_drop. lia.
    + rewrite length_drop. lia.
Qed.

(** C3: in either mode, on every non-empty text with a non-empty
    delimiter, a list that [split] returns has no empty entry; when the
    delimiter does not occur in the text the call returns the text as the
    only token; when the text is made of delimiters only it returns the
    empty list; on "a,,b" with "," it returns "a" and "b".  None of this
    depends on the length of the text ([< npos] only says that the length
    is a [size_t]); within [INT_MAX] characters a list is returned
    whenever the budget covers the text. *)
Theorem split_tokens fuel str del multiple :
  str <> [] -> del <> [] ->
  (forall ts, string.split fuel str del multiple = Ret ts ->
     Forall (fun t => t <> []) ts) /\
  (¬ occurs del multiple str -> (1 <= fuel)%nat ->
     string.split fuel str del multiple = Ret [str]) /\
  (only_delimiters del multiple str ->
     std.length str < std.npos -> (List.length str <= fuel)%nat ->
     string.split fuel str del multiple = Ret []) /\
  (std.length str <= INT_MAX -> (List.length str <= fuel)%nat ->
     exists ts, string.split fuel str del multiple = Ret ts) /\
  (forall fuel', (4 <= fuel')%nat ->
     string.split fuel' (lit "a,,b") (lit ",") false = Ret [lit "a"; lit "b"]).
Proof.
  intros Hs Hd. rewrite split_unfold by done. repeat split.
  - intros ts Hrun. by apply (split_loop_keeps_nonempty _ _ _ _ _ Hrun).
  - intros Hno Hfuel. destruct fuel as [|fuel]; [lia|].
    rewrite split_loop_cons by done.
    destruct (next_match del multiple str) as [p|] eqn:Hm.
    { destruct Hno. by eapply next_match_occurs. }
    rewrite split_step_none by done. cbn [mbind outcome_bind].
    rewrite split_loop_nil. by destruct str.
  - intros Hall Hlen Hfuel. by apply split_loop_only_delimiters.
  - intros Hlen Hfuel.
    destruct (split_loop_spec del multiple Hd fuel str Hlen Hfuel) as (ts & _ & Hrun).
    exists ts. by rewrite Hrun.
  - intros fuel' Hf. do 4 (destruct fuel' as [|fuel']; [lia|]). reflexivity.
Qed.

Lemma split_tokens_witness :
  (forall ts, string.split 4 (lit ",,,,") (lit ",,") false = Ret ts ->
     Forall (fun t => t <> []) ts) /\
  string.split 4 (lit "abcd") (lit ",,") false = Ret [lit "abcd"] /\
  string.split 4 (lit ",,,,") (lit ",,") false = Ret [] /\
  exists ts, string.split 4 (lit ",,,,") (lit ",,") false = Ret ts.
Proof.
  destruct (split_tokens 4 (lit ",,,,") (lit ",,") false)
    as (Hne & _ & Hall & Hret & _); [discriminate..|].
  destruct (split_tokens 4 (lit "abcd") (lit ",,") false)
    as (_ & Hno & _); [discriminate..|].
  split; [exact Hne|]. split; [|split].
  - apply Hno; [|lia]. intros (pre & post & Hstr).
    apply (index_of_None (lit ",,") (lit "abcd") (List.length pre) eq_refl).
    exists post. by rewrite Hstr, drop_app_length.
  - apply Hall; [by exists 2%nat | by vm_compute | simpl; lia].
  - apply Hret; [vm_compute; discriminate | simpl; lia].
Defined.

(** ** join *)

Lemma join_loop sep (list : list text) size suf :
  forall pre joined,
    list = pre ++ suf -> size = List.length list ->
    foldl (fun joined n =>
             joined ++ default [] (list !! n)
                    ++ (if (n + 1 <? size)%nat then sep else []))
          joined (seq (List.length pre) (List.length suf))
    = joined ++ join_spec suf sep.
Proof.
  induction suf as [|t suf IH]; intros pre joined Hlist Hsize.
  - simpl. by rewrite app_nil_r.
  - cbn [List.length seq foldl].
    replace (S (List.length pre)) with (List.length (pre ++ [t]))
      by (rewrite length_app; simpl; lia).
    rewrite IH by (try rewrite <- app_assoc; done).
    assert (list !! List.length pre = Some t) as ->
      by (subst list; by apply list_lookup_middle).
    assert (size = List.length pre + S (List.length suf))%nat as Hsz
      by (subst; by rewrite length_app).
    cbn [default]. destruct suf as [|t' suf].
    + destruct (Nat.ltb_spec (List.length pre + 1) size); [simpl in Hsz; lia|].
      simpl. by rewrite !app_nil_r.
    + destruct (Nat.ltb_spec (List.length pre + 1) size); [|simpl in Hsz; lia].
      cbn [join_spec]. by rewrite <- !app_assoc.
Qed.

Lemma join_eq_spec tokens sep : string.join tokens sep = join_spec tokens sep.
Proof. unfold string.join. by apply (join_loop sep tokens _ tokens []). Qed.

(** C6: [join] is the concatenation of the tokens in order with exactly
    one separator between adjacent tokens and none at the ends; the empty
    list gives the empty text, and the three texts of the specification
    come out as stated. *)
Theorem join_correct tokens sep :
  string.join tokens sep = join_spec tokens sep /\
  string.join [] sep = [] /\
  (forall t, string.join [t] sep = t) /\
  (forall t ts, ts <> [] -> string.join (t :: ts) sep = t ++ sep ++ string.join ts sep) /\
  string.join [] (lit ",") = [] /\
  string.join [lit "a"] (lit ",") = lit "a" /\
  string.join [lit "a"; lit "b"; lit "c"] (lit "-") = lit "a-b-c".
Proof.
  split; [apply join_eq_spec|]. split; [done|].
  split; [intros t; by rewrite join_eq_spec|].
  split; [|done].
  intros t [|t' ts] Hne; [done|]. by rewrite !join_eq_spec.
Qed.

Lemma join_correct_witness :
  string.join (lit "x" :: [lit "y"; lit "z"]) (lit ", ")
  = lit "x" ++ lit ", " ++ string.join [lit "y"; lit "z"] (lit ", ").
Proof.
  apply (proj1 (proj2 (proj2 (proj2 (join_correct [] (lit ", ")))))).
  discriminate.
Defined.

(** ** Round trip of split and join *)




Lemma index_of_None_occurs del str :
  std.index_of del str = None -> ¬ occurs del false str.
Proof.
  intros Hnone (pre & post & Hstr).
  apply (index_of_None del str (List.length pre) Hnone).
  exists post. by rewrite Hstr, drop_app_length.
Qed.


(** The empty text has no occurrence of the delimiter at all, yet [split]
    stops in its first assertion on it: no token list is returned that
    [join] could turn back into the text. *)
Lemma split_join_roundtrip_empty_text :
  lit "," <> [] /\
  ¬ lit "," `prefix_of` [] /\
  ¬ lit "," `suffix_of` [] /\
  ¬ occurs (lit "," ++ lit ",") false [] /\
  forall fuel,
    string.split fuel [] (lit ",") false = AssertionFailure /\
    ¬ exists ts, string.split fuel [] (lit ",") false = Ret ts /\
                 string.join ts (lit ",") = [].
Proof.
  split; [discriminate|].
  split; [apply starts_with_false; reflexivity|].
  split; [intros [k Hk]; by destruct k|].
  split; [apply index_of_None_occurs; reflexivity|].
  intros fuel. split; [reflexivity|]. intros (ts & Hrun & _). discriminate.
Qed.

(** ** trim *)

Lemma not_blank_true c : not_blank c = true <-> c ∉ WHITESPACE.
Proof. unfold not_blank. rewrite negb_true_iff. apply mem_false. Qed.

Lemma not_blank_false c : not_blank c = false <-> c ∈ WHITESPACE.
Proof. unfold not_blank. rewrite negb_false_iff. apply mem_spec. Qed.

Lemma last_index_where_snoc p s c :
  p c = true -> std.last_index_where p (s ++ [c]) = Some (List.length s).
Proof.
  intros Hc. induction s as [|x s IH]; simpl.
  - by rewrite Hc.
  - by rewrite IH.
Qed.

Lemma trim_blank str :
  std.length str < std.npos ->
  (forall c, c ∈ str -> c ∈ WHITESPACE) ->
  string.trim str = OutOfRange.
Proof.
  intros Hlen Hall. unfold string.trim, std.find_first_not_of.
  replace (std.index_where _ str) with (@None nat).
  - cbn [std.pos_or_npos]. by rewrite substr_npos_throws.
  - symmetry. apply index_where_None. intros x Hx. by apply not_blank_false, Hall.
Qed.

(** The second line of [trim] does absorb the not-found value: the sum
    [npos + 1] wraps to 0 and [substr(0, 0)] is the empty text. *)
Lemma substr_npos_succ (s : text) :
  std.substr s 0 (size_wrap (std.npos + 1)) = Ret [].
Proof.
  rewrite size_wrap_npos_succ. unfold std.substr.
  destruct (Z.ltb_spec (std.length s) 0) as [?|_]; [zlia|].
  replace (Z.min 0 (std.length s - 0)) with 0 by zlia. done.
Qed.

Lemma trim_fixed t c d :
  std.length t < std.npos ->
  head t = Some c -> c ∉ WHITESPACE ->
  last t = Some d -> d ∉ WHITESPACE ->
  string.trim t = Ret t.
Proof.
  intros Hlen Hhead Hc Hlast Hd.
  unfold string.trim, std.find_first_not_of, std.find_last_not_of.
  fold not_blank.
  assert (std.index_where not_blank t = Some 0%nat) as ->.
  { destruct t as [|x t]; [done|]. injection Hhead as ->.
    simpl. by rewrite (proj2 (not_blank_true c)). }
  cbn [std.pos_or_npos].
  rewrite (substr_suffix t 0) by zlia. rewrite drop_0. simpl.
  apply last_Some in Hlast as [t' ->].
  rewrite last_index_where_snoc by by apply not_blank_true.
  cbn [std.pos_or_npos].
  unfold std.length in Hlen. rewrite length_app in Hlen.
  rewrite size_wrap_small by zlia.
  replace (Z.of_nat (List.length t') + 1) with (Z.of_nat (List.length (t' ++ [d])))
    by (rewrite length_app; simpl; lia).
  rewrite substr_prefix by done. by rewrite firstn_all.
Qed.

Lemma trim_result str :
  std.length str < std.npos ->
  (exists c, c ∈ str /\ c ∉ WHITESPACE) ->
  exists l t r c d,
    str = l ++ t ++ r /\
    (forall x, x ∈ l -> x ∈ WHITESPACE) /\
    (forall x, x ∈ r -> x ∈ WHITESPACE) /\
    head t = Some c /\ (c ∉ WHITESPACE) /\
    last t = Some d /\ (d ∉ WHITESPACE) /\
    string.trim str = Ret t.
Proof.
  intros Hlen (c0 & Hin & Hc0).
  unfold string.trim, std.find_first_not_of, std.find_last_not_of.
  fold not_blank.
  destruct (std.index_where not_blank str) as [i|] eqn:Hi; cycle 1.
  { rewrite index_where_None in Hi. apply Hi, not_blank_false in Hin. done. }
  apply index_where_Some in Hi as ([c [Hci Hc]] & Hl).
  pose proof (lookup_lt_Some _ _ _ Hci) as Hilt.
  cbn [std.pos_or_npos]. rewrite substr_suffix by zlia. simpl.
  set (str1 := drop i str).
  assert (str1 !! 0%nat = Some c) as Hc1
    by (unfold str1; by rewrite lookup_drop, Nat.add_0_r).
  destruct (std.last_index_where not_blank str1) as [j|] eqn:Hj; cycle 1.
  { rewrite last_index_where_None in Hj.
    rewrite (Hj c) in Hc; [done|]. by eapply list_elem_of_lookup_2. }
  apply last_index_where_Some in Hj as ([d [Hdj Hd]] & Hr).
  pose proof (lookup_lt_Some _ _ _ Hdj) as Hjlt.
  assert (List.length str1 <= List.length str)%nat as Hle1
    by (unfold str1; rewrite length_drop; lia).
  cbn [std.pos_or_npos]. rewrite size_wrap_small by zlia.
  replace (Z.of_nat j + 1) with (Z.of_nat (S j)) by lia.
  rewrite substr_prefix by lia.
  exists (take i str), (take (S j) str1), (drop (S j) str1), c, d.
  split; [by rewrite take_drop; unfold str1; rewrite take_drop|].
  split; [intros x Hx; by apply not_blank_false, Hl|].
  split; [intros x Hx; by apply not_blank_false, Hr|].
  split; [rewrite head_lookup, lookup_take_lt by lia; done|].
  split; [by apply not_blank_true|].
  split; [|split; [by apply not_blank_true | done]].
  rewrite last_lookup, length_take_le by lia. simpl.
  by rewrite lookup_take_lt by lia.
Qed.

(** C1, at the degenerate inputs: on a text of blanks only, and on the
    empty text, the first [substr] of [trim] is called at the not-found
    value of the search and throws; nothing is returned.  On "  hi  " the
    call returns "hi". *)
Theorem trim_degenerate :
  string.trim (lit "   ") = OutOfRange /\
  string.trim [] = OutOfRange /\
  string.trim (lit "  hi  ") = Ret (lit "hi").
Proof. by vm_compute. Qed.

(** C10: on a text with at least one character outside the whitespace
    set, [trim] returns a text that [trim] maps to itself, and that text
    is non-empty and neither starts nor ends with a whitespace character.
    The length of a text is a [size_t] below [npos]. *)
Theorem trim_idempotent str :
  std.length str < std.npos ->
  (exists c, c ∈ str /\ c ∉ WHITESPACE) ->
  string.trim str ≫= string.trim = string.trim str /\
  exists t, string.trim str = Ret t /\ string.trim t = Ret t /\
    t <> [] /\
    (forall c, head t = Some c -> c ∉ WHITESPACE) /\
    (forall c, last t = Some c -> c ∉ WHITESPACE).
Proof.
  intros Hlen Hex.
  destruct (trim_result str Hlen Hex)
    as (l & t & r & c & d & Hstr & _ & _ & Hh & Hc & Hl & Hd & Hrun).
  assert (string.trim t = Ret t) as Hfix.
  { apply (trim_fixed t c d); try done.
    apply (f_equal List.length) in Hstr. rewrite !length_app in Hstr. zlia. }
  split; [by rewrite Hrun; simpl; rewrite Hfix|].
  exists t. split; [done|]. split; [done|].
  split; [by destruct t|].
  split; intros x Hx; congruence.
Qed.

Lemma trim_idempotent_witness :
  string.trim (lit "  hi  ") ≫= string.trim = string.trim (lit "  hi  ").
Proof.
  refine (proj1 (trim_idempotent (lit "  hi  ") _ _)).
  - by vm_compute.
  - exists "h"%char. split.
    + apply mem_spec. reflexivity.
    + apply mem_false. reflexivity.
Defined.

(** ** array::reverse *)

Section array_reverse.
Context {T : Type}.
Implicit Types arr a : list T.

Lemma swap_length arr i j : List.length (array.swap arr i j) = List.length arr.
Proof.
  unfold array.swap. destruct (arr !! i), (arr !! j); try done.
  by rewrite !length_insert.
Qed.

Lemma swap_lookup arr i j k :
  (i < List.length arr)%nat -> (j < List.length arr)%nat ->
  array.swap arr i j !! k =
  if decide (k = j) then arr !! i
  else if decide (k = i) then arr !! j
  else arr !! k.
Proof.
  intros Hi Hj. unfold array.swap.
  destruct (lookup_lt_is_Some_2 arr i Hi) as [x Hx].
  destruct (lookup_lt_is_Some_2 arr j Hj) as [y Hy].
  rewrite Hx, Hy.
  destruct (decide (k = j)) as [->|Hkj].
  - by rewrite list_lookup_insert_eq by (by rewrite length_insert).
  - rewrite list_lookup_insert_ne by done.
    destruct (decide (k = i)) as [->|Hki].
    + by rewrite list_lookup_insert_eq.
    + by rewrite list_lookup_insert_ne.
Qed.

Lemma reverse_upto_inv arr k :
  (2 * k <= List.length arr)%nat ->
  List.length (reverse_upto arr k) = List.length arr /\
  forall i, (i < List.length arr)%nat ->
    reverse_upto arr k !! i =
    if decide (i < k \/ List.length arr - k <= i)%nat
    then arr !! (List.length arr - 1 - i)%nat
    else arr !! i.
Proof.
  induction k as [|k IH]; intros Hk.
  - split; [done|]. intros i Hi. simpl.
    destruct (decide _) as [[?|?]|?]; (done || lia).
  - destruct IH as [Hlen Hget]; [lia|].
    unfold reverse_upto in *. rewrite seq_S, foldl_snoc. simpl.
    set (a := foldl _ arr (seq 0 k)) in *.
    split; [by rewrite swap_length|].
    intros i Hi. rewrite swap_lookup by lia.
    repeat (rewrite Hget by lia).
    repeat destruct (decide _);
      try done; try lia; f_equal; lia.
Qed.

Lemma reverse_eq arr : array.reverse arr = List.rev arr.
Proof.
  pose proof (Nat.div_mod_eq (List.length arr) 2) as Hdiv.
  pose proof (Nat.mod_upper_bound (List.length arr) 2) as Hmod.
  destruct (reverse_upto_inv arr (List.length arr / 2)) as [Hlen Hget]; [lia|].
  change (reverse_upto arr (List.length arr / 2)) with (array.reverse arr) in *.
  rewrite rev_alt. change (rev_append arr []) with (reverse arr).
  apply list_eq. intros i.
  destruct (decide (i < List.length arr)%nat) as [Hi|Hi].
  - rewrite Hget, reverse_lookup by done.
    destruct (decide _); f_equal; lia.
  - rewrite !lookup_ge_None_2; [done| |]; rewrite ?length_reverse; lia.
Qed.

End array_reverse.

(** C7: reversing an array in place twice gives back the array, and one
    reversal is the list in reverse order.  No condition on the length is
    needed; the non-empty arrays the C++ type admits are covered. *)
Theorem reverse_reverse {T : Type} (arr : list T) :
  array.reverse (array.reverse arr) = arr /\ array.reverse arr = List.rev arr.
Proof.
  split; [|apply reverse_eq].
  rewrite !reverse_eq. apply rev_involutive.
Qed.

(** * Further properties of the header *)

(** ** array::transform and string::transform *)

Section array_transform.
Context {T : Type}.
Implicit Types arr : list T.

Lemma transform_upto arr (func : T -> T) k :
  (k <= List.length arr)%nat ->
  foldl (fun a n => match a !! n with
                    | Some x => <[n:=func x]> a
                    | None => a
                    end) arr (seq 0 k)
  = map func (take k arr) ++ drop k arr.
Proof.
  induction k as [|k IH]; intros Hk.
  - by rewrite take_0, drop_0.
  - rewrite seq_S, foldl_snoc, IH by lia. simpl.
    destruct (lookup_lt_is_Some_2 arr k) as [x Hx]; [lia|].
    assert (List.length (map func (take k arr)) = k) as Hlen
      by (rewrite length_map, length_take_le; lia).
    rewrite lookup_app_r by lia. rewrite Hlen, Nat.sub_diag.
    rewrite lookup_drop, Nat.add_0_r, Hx.
    rewrite (drop_S arr x k Hx), (take_S_r arr k x Hx).
    rewrite map_app. simpl. rewrite <- app_assoc. simpl.
    rewrite insert_app_r_alt by lia. by rewrite Hlen, Nat.sub_diag.
Qed.

Lemma transform_map arr (func : T -> T) : array.transform arr func = map func arr.
Proof.
  unfold array.transform. rewrite transform_upto by done.
  by rewrite firstn_all, drop_all, app_nil_r.
Qed.

End array_transform.

(** X1: [array::transform], and [string::transform] with it, replaces
    every element by its image under the function, in place order: the
    result is the element-wise image, of the same size, and position [i]
    holds the image of what was at [i]. *)
Theorem transform_elementwise {T : Type} (arr : list T) (func : T -> T) :
  array.transform arr func = map func arr /\
  array.get_length (array.transform arr func) = array.get_length arr /\
  (forall i, array.transform arr func !! i = func <$> arr !! i) /\
  (forall (str : text) f, string.transform str f = map f str).
Proof.
  split; [apply transform_map|]. split; [|split].
  - unfold array.get_length. by rewrite transform_map, length_map.
  - intros i. by rewrite transform_map, list_lookup_fmap.
  - intros str f. apply transform_map.
Qed.

(** X2: the two in-place operations on arrays commute, and transforming
    twice is transforming once with the composed function. *)
Theorem transform_reverse_commute {T : Type} (arr : list T) (f g : T -> T) :
  array.transform (array.reverse arr) f = array.reverse (array.transform arr f) /\
  array.transform (array.transform arr f) g = array.transform arr (fun x => g (f x)).
Proof.
  rewrite !transform_map, !reverse_eq. split.
  - apply map_rev.
  - apply map_map.
Qed.

(** X3: [string::reverse] returns the characters in reverse order, keeps
    the length, undoes itself, and turns a concatenation around. *)
Theorem string_reverse_correct (str str2 : text) :
  string.reverse str = List.rev str /\
  List.length (string.reverse str) = List.length str /\
  string.reverse (string.reverse str) = str /\
  string.reverse (str ++ str2) = string.reverse str2 ++ string.reverse str.
Proof.
  unfold string.reverse. rewrite !reverse_eq.
  split; [done|]. split; [apply length_rev|].
  split; [apply rev_involutive | apply rev_app_distr].
Qed.

(** ** string::to_upper and string::to_lower *)

Lemma upper_char_idem c : upper_char (upper_char c) = upper_char c.
Proof. by_cases_on_char c. Qed.

Lemma lower_char_idem c : lower_char (lower_char c) = lower_char c.
Proof. by_cases_on_char c. Qed.

Lemma upper_lower_char c : upper_char (lower_char c) = upper_char c.
Proof. by_cases_on_char c. Qed.

Lemma lower_upper_char c : lower_char (upper_char c) = lower_char c.
Proof. by_cases_on_char c. Qed.

Lemma upper_char_spec c :
  upper_char c = if is_lower c then ascii_of_nat (nat_of_ascii c - 32) else c.
Proof. by_cases_on_char c. Qed.

Lemma lower_char_spec c :
  lower_char c = if is_upper c then ascii_of_nat (nat_of_ascii c + 32) else c.
Proof. by_cases_on_char c. Qed.

Lemma upper_char_not_lower c : is_lower (upper_char c) = false.
Proof. by_cases_on_char c. Qed.

Lemma lower_char_not_upper c : is_upper (lower_char c) = false.
Proof. by_cases_on_char c. Qed.

Lemma upper_char_seven_bit c :
  (nat_of_ascii c <? 128)%nat = true -> (nat_of_ascii (upper_char c) <? 128)%nat = true.
Proof. by_cases_on_char c. Qed.

Lemma lower_char_seven_bit c :
  (nat_of_ascii c <? 128)%nat = true -> (nat_of_ascii (lower_char c) <? 128)%nat = true.
Proof. by_cases_on_char c. Qed.

Lemma to_upper_map str : string.to_upper str = map upper_char str.
Proof. apply transform_map. Qed.

Lemma to_lower_map str : string.to_lower str = map lower_char str.
Proof. apply transform_map. Qed.

(** X4: on a 7-bit text, converting to one case twice is converting once,
    and a conversion wipes out an earlier conversion to the other case. *)
Theorem case_conversion_absorbs (str : text) :
  seven_bit str ->
  string.to_upper (string.to_upper str) = string.to_upper str /\
  string.to_lower (string.to_lower str) = string.to_lower str /\
  string.to_upper (string.to_lower str) = string.to_upper str /\
  string.to_lower (string.to_upper str) = string.to_lower str.
Proof.
  intros _. rewrite !to_upper_map, !to_lower_map, !map_map.
  repeat split; apply map_ext; intros c.
  - apply upper_char_idem.
  - apply lower_char_idem.
  - apply upper_lower_char.
  - apply lower_upper_char.
Qed.

Lemma case_conversion_absorbs_witness :
  string.to_upper (string.to_lower (lit "MiXeD 42")) = string.to_upper (lit "MiXeD 42").
Proof.
  apply (proj1 (proj2 (proj2 (case_conversion_absorbs (lit "MiXeD 42") eq_refl)))).
Defined.

(** X5: on a 7-bit text, [to_upper] maps position by position: a
    lower-case letter becomes the character 32 places before it, any other
    character stays; [to_lower] maps an upper-case letter to the character
    32 places after it and keeps the others. *)
Theorem case_conversion_pointwise (str : text) i c :
  seven_bit str -> str !! i = Some c ->
  string.to_upper str !! i =
    Some (if is_lower c then ascii_of_nat (nat_of_ascii c - 32) else c) /\
  string.to_lower str !! i =
    Some (if is_upper c then ascii_of_nat (nat_of_ascii c + 32) else c).
Proof.
  intros _ Hc. rewrite to_upper_map, to_lower_map.
  change (map upper_char str) with (upper_char <$> str).
  change (map lower_char str) with (lower_char <$> str).
  rewrite !list_lookup_fmap, Hc. simpl.
  by rewrite upper_char_spec, lower_char_spec.
Qed.

Lemma case_conversion_pointwise_witness :
  string.to_upper (lit "a-Z") !! 0%nat = Some "A"%char /\
  string.to_lower (lit "a-Z") !! 0%nat = Some "a"%char.
Proof.
  apply (case_conversion_pointwise (lit "a-Z") 0 "a"%char eq_refl eq_refl).
Defined.

(** X6: on a 7-bit text, the result of [to_upper] has the length of the
    text, is 7-bit and holds no lower-case letter; the result of
    [to_lower] likewise holds no upper-case letter. *)
Theorem case_conversion_result (str : text) :
  seven_bit str ->
  List.length (string.to_upper str) = List.length str /\
  seven_bit (string.to_upper str) /\
  (forall c, c ∈ string.to_upper str -> is_lower c = false) /\
  List.length (string.to_lower str) = List.length str /\
  seven_bit (string.to_lower str) /\
  (forall c, c ∈ string.to_lower str -> is_upper c = false).
Proof.
  intros H7. rewrite to_upper_map, to_lower_map, !length_map.
  unfold seven_bit in *. rewrite forallb_forall in H7.
  repeat split.
  - apply forallb_forall. intros c (x & <- & Hx)%in_map_iff.
    by apply upper_char_seven_bit, H7.
  - intros c (x & <- & Hx)%list_elem_of_In%in_map_iff. apply upper_char_not_lower.
  - apply forallb_forall. intros c (x & <- & Hx)%in_map_iff.
    by apply lower_char_seven_bit, H7.
  - intros c (x & <- & Hx)%list_elem_of_In%in_map_iff. apply lower_char_not_upper.
Qed.

Lemma case_conversion_result_witness :
  List.length (string.to_upper (lit "MiXeD 42")) = List.length (lit "MiXeD 42").
Proof.
  apply (proj1 (case_conversion_result (lit "MiXeD 42") eq_refl)).
Defined.

(** ** More on join *)

Lemma join_spec_cons t ts sep :
  ts <> [] -> join_spec (t :: ts) sep = t ++ sep ++ join_spec ts sep.
Proof. intros Hts. by destruct ts. Qed.

Lemma join_spec_app a b sep :
  a <> [] -> b <> [] ->
  join_spec (a ++ b) sep = join_spec a sep ++ sep ++ join_spec b sep.
Proof.
  intros Ha Hb. induction a as [|t a IH]; [done|].
  destruct a as [|t' a].
  - simpl app. by rewrite join_spec_cons.
  - rewrite <- app_comm_cons, join_spec_cons by done.
    rewrite IH by done. rewrite (join_spec_cons t (t' :: a)) by done.
    by rewrite <- !app_assoc.
Qed.

Lemma join_spec_length ts sep :
  List.length (join_spec ts sep) =
  (total_length ts + (List.length ts - 1) * List.length sep)%nat.
Proof.
  induction ts as [|t ts IH]; [done|].
  destruct ts as [|t' ts].
  - simpl. lia.
  - rewrite join_spec_cons by done. rewrite !length_app, IH.
    cbn [total_length foldr List.length]. lia.
Qed.

Lemma foldl_ext_in {A B} (f g : A -> B -> A) (l : list B) (a : A) :
  (forall a x, x ∈ l -> f a x = g a x) -> foldl f a l = foldl g a l.
Proof.
  revert a. induction l as [|x l IH]; intros a Hfg; [done|].
  simpl. rewrite Hfg by left. apply IH. intros a' y Hy. apply Hfg. by right.
Qed.

(** X7: with the empty separator, the default of the parameter, [join] is
    plain concatenation of the tokens. *)
Theorem join_empty_separator (tokens : list text) :
  string.join tokens [] = concat tokens.
Proof.
  rewrite join_eq_spec. induction tokens as [|t ts IH]; [done|].
  destruct ts as [|t' ts].
  - simpl. by rewrite app_nil_r.
  - rewrite join_spec_cons by done. by rewrite IH, app_nil_l.
Qed.

(** X8: the length of the joined text is the sum of the lengths of the
    tokens plus one separator length per gap between tokens. *)
Theorem join_length (tokens : list text) (sep : text) :
  List.length (string.join tokens sep) =
  (total_length tokens + (List.length tokens - 1) * List.length sep)%nat.
Proof. rewrite join_eq_spec. apply join_spec_length. Qed.

(** X9: joining two non-empty lists one after the other is joining each
    and putting one separator between the two results. *)
Theorem join_app (a b : list text) (sep : text) :
  a <> [] -> b <> [] ->
  string.join (a ++ b) sep = string.join a sep ++ sep ++ string.join b sep.
Proof. intros Ha Hb. rewrite !join_eq_spec. by apply join_spec_app. Qed.

Lemma join_app_witness :
  string.join ([lit "a"; lit "b"] ++ [lit "c"]) (lit ", ")
  = string.join [lit "a"; lit "b"] (lit ", ") ++ lit ", " ++ string.join [lit "c"] (lit ", ").
Proof.
  apply (join_app [lit "a"; lit "b"] [lit "c"] (lit ", ")); discriminate.
Defined.

(** X10: the array overload of [join], called with a [size] within the
    array, gives what the vector overload gives on the first [size]
    elements; with the size of the array, on all of them. *)
Theorem join_array_correct (size : nat) (arr : list text) (sep : text) :
  (size <= List.length arr)%nat ->
  string.join_array size arr sep = string.join (take size arr) sep /\
  string.join_array (List.length arr) arr sep = string.join arr sep.
Proof.
  intros Hsize. split; [|done].
  unfold string.join_array, string.join.
  rewrite length_take_le by done.
  apply foldl_ext_in. intros joined n Hn%list_elem_of_In%in_seq.
  by rewrite lookup_take_lt by lia.
Qed.

Lemma join_array_correct_witness :
  string.join_array 2 [lit "a"; lit "b"; lit "c"] (lit "-")
  = string.join (take 2 [lit "a"; lit "b"; lit "c"]) (lit "-").
Proof.
  apply (proj1 (join_array_correct 2 [lit "a"; lit "b"; lit "c"] (lit "-")
                  ltac:(simpl; lia))).
Defined.

(** ** More on split *)

Lemma next_match_None_clean del multiple str :
  next_match del multiple str = None -> ¬ occurs del multiple str.
Proof.
  destruct multiple; simpl.
  - rewrite index_where_None. intros Hnone (c & Hc & Hd).
    apply mem_spec in Hd. rewrite (Hnone c Hc) in Hd. done.
  - apply index_of_None_occurs.
Qed.

Lemma next_match_Some_clean del multiple str p :
  del <> [] ->
  next_match del multiple str = Some p -> ¬ occurs del multiple (take p str).
Proof.
  intros Hd. destruct multiple; simpl.
  - intros (_ & Hpre)%index_where_Some (c & Hc & Hin).
    apply mem_spec in Hin. rewrite (Hpre c Hc) in Hin. done.
  - intros (_ & Hle & Hmin)%index_of_Some (a & b & Hab).
    assert (List.length (take p str) = p) as Hlen by by apply length_take_le.
    rewrite Hab, !length_app in Hlen.
    apply (Hmin (List.length a)).
    + destruct del; [done | simpl in Hlen; lia].
    + exists (b ++ drop p str).
      rewrite <- (take_drop p str) at 1. rewrite Hab, <- !app_assoc.
      by rewrite drop_app_length.
Qed.

Lemma piece_of_drop t str n : piece_of t (drop n str) -> piece_of t str.
Proof.
  intros (a & b & Hab). exists (take n str ++ a), b.
  rewrite <- (take_drop n str) at 1. by rewrite Hab, <- !app_assoc.
Qed.

Lemma piece_of_length t str : piece_of t str -> (List.length t <= List.length str)%nat.
Proof. intros (a & b & ->). rewrite !length_app. lia. Qed.

Lemma tokens_of_clean del multiple str ts :
  del <> [] ->
  tokens_of del multiple str ts ->
  Forall (fun t => piece_of t str /\ ¬ occurs del multiple t) ts.
Proof.
  intros Hd. induction 1 as [|str Hne Hm|str p ts Hne Hm Hrest IH].
  - constructor.
  - constructor; [|constructor]. split.
    + exists [], []. by rewrite app_nil_r.
    + by apply next_match_None_clean.
  - assert (Forall (fun t => piece_of t str /\ ¬ occurs del multiple t) ts) as Hts.
    { eapply Forall_impl; [exact IH|]. intros t [Hp Ho]. split; [|done].
      by eapply piece_of_drop. }
    destruct (take p str) as [|c t] eqn:Ht; [done|]. simpl.
    constructor; [|done]. split.
    + exists [], (drop p str). by rewrite <- Ht, take_drop.
    + rewrite <- Ht. by eapply next_match_Some_clean.
Qed.

(** X11: in either mode every token [split] returns is a contiguous piece
    of the text in which the delimiter does not occur (no character of
    the set, or no copy of the delimiter). *)
Theorem split_tokens_clean fuel str del multiple :
  str <> [] -> del <> [] ->
  std.length str <= INT_MAX -> (List.length str <= fuel)%nat ->
  exists ts, string.split fuel str del multiple = Ret ts /\
    Forall (fun t => piece_of t str /\ ¬ occurs del multiple t) ts.
Proof.
  intros Hs Hd Hlen Hfuel.
  destruct (split_spec fuel str del multiple Hs Hd Hlen Hfuel) as (ts & Hts & Hrun).
  exists ts. split; [done|]. by apply tokens_of_clean.
Qed.

Lemma split_tokens_clean_witness :
  exists ts, string.split 7 (lit "ab--cd-") (lit "--") false = Ret ts /\
    Forall (fun t => piece_of t (lit "ab--cd-") /\ ¬ occurs (lit "--") false t) ts.
Proof.
  apply (split_tokens_clean 7 (lit "ab--cd-") (lit "--") false).
  - discriminate.
  - discriminate.
  - vm_compute. discriminate.
  - simpl. lia.
Defined.

Lemma concat_keep t ts : concat (keep t ts) = t ++ concat ts.
Proof. by destruct t. Qed.

Lemma concat_fields set str cur :
  concat (fields set str cur)
  = cur ++ List.filter (fun c => negb (std.mem c set)) str.
Proof.
  revert cur. induction str as [|c str IH]; intros cur; simpl.
  - by rewrite concat_keep.
  - destruct (std.mem c set); simpl.
    + by rewrite concat_keep, IH.
    + by rewrite IH, <- app_assoc.
Qed.

(** X12: in set mode nothing but characters of the set is lost: the
    tokens, put end to end, are the text with the characters of the set
    taken out. *)
Theorem split_set_mode_keeps_text fuel str del :
  str <> [] -> del <> [] ->
  std.length str <= INT_MAX -> (List.length str <= fuel)%nat ->
  exists ts, string.split fuel str del true = Ret ts /\
    concat ts = List.filter (fun c => negb (std.mem c del)) str.
Proof.
  intros Hs Hd Hlen Hfuel.
  destruct (split_spec fuel str del true Hs Hd Hlen Hfuel) as (ts & Hts & Hrun).
  exists ts. split; [done|].
  by rewrite (tokens_of_fields del str ts Hts), concat_fields.
Qed.

Lemma split_set_mode_keeps_text_witness :
  exists ts, string.split 8 (lit "a, b;c,,") (lit ",; ") true = Ret ts /\
    concat ts = lit "abc".
Proof.
  apply (split_set_mode_keeps_text 8 (lit "a, b;c,,") (lit ",; ")).
  - discriminate.
  - discriminate.
  - vm_compute. discriminate.
  - simpl. lia.
Defined.

(** ** split after join *)

Lemma fields_token set t s cur :
  (forall c, c ∈ t -> c ∉ set) ->
  fields set (t ++ s) cur = fields set s (cur ++ t).
Proof.
  revert cur. induction t as [|x t IH]; intros cur Ht; simpl.
  - by rewrite app_nil_r.
  - rewrite (proj2 (mem_false x set)) by (apply Ht; by left).
    rewrite IH by (intros y Hy; apply Ht; by right).
    by rewrite <- app_assoc.
Qed.

Lemma fields_sep set sep s :
  (forall c, c ∈ sep -> c ∈ set) ->
  fields set (sep ++ s) [] = fields set s [].
Proof.
  induction sep as [|x sep IH]; intros Hsep; simpl; [done|].
  rewrite (proj2 (mem_spec x set)) by (apply Hsep; by left).
  simpl. apply IH. intros y Hy. apply Hsep. by right.
Qed.

Lemma fields_sep_cur set sep s cur :
  sep <> [] -> (forall c, c ∈ sep -> c ∈ set) ->
  fields set (sep ++ s) cur = keep cur (fields set s []).
Proof.
  intros Hne Hsep. destruct sep as [|x sep]; [done|].
  cbn [app fields].
  rewrite (proj2 (mem_spec x set)) by (apply Hsep; by left).
  rewrite fields_sep; [done|]. intros y Hy. apply Hsep. by right.
Qed.

Lemma fields_join set sep tokens :
  sep <> [] -> (forall c, c ∈ sep -> c ∈ set) ->
  Forall (fun t => t <> [] /\ forall c, c ∈ t -> c ∉ set) tokens ->
  fields set (join_spec tokens sep) [] = tokens.
Proof.
  intros Hne Hsep. induction 1 as [|t ts [Ht Hclean] Hts IH]; [done|].
  destruct ts as [|t' ts].
  - cbn [join_spec]. rewrite fields_rest by done. by destruct t.
  - rewrite join_spec_cons by done. rewrite fields_token by done.
    rewrite app_nil_l, fields_sep_cur by done.
    rewrite IH. by destruct t.
Qed.

Lemma join_spec_nonempty tokens sep :
  tokens <> [] -> Forall (fun t => t <> []) tokens -> join_spec tokens sep <> [].
Proof.
  intros Hne Hall. destruct Hall as [|t ts Ht Hts]; [done|].
  destruct ts; simpl; [done|]. by destruct t.
Qed.

Lemma split_join_set fuel tokens sep del :
  tokens <> [] ->
  Forall (fun t => t <> [] /\ forall c, c ∈ t -> c ∉ del) tokens ->
  sep <> [] -> (forall c, c ∈ sep -> c ∈ del) ->
  std.length (join_spec tokens sep) <= INT_MAX ->
  (List.length (join_spec tokens sep) <= fuel)%nat ->
  string.split fuel (join_spec tokens sep) del true = Ret tokens.
Proof.
  intros Hne Hall Hsep Hin Hlen Hfuel.
  assert (del <> []) as Hd.
  { destruct sep as [|x sep]; [done|]. intros ->.
    by apply (elem_of_nil x), Hin; left. }
  assert (join_spec tokens sep <> []) as Hs.
  { apply join_spec_nonempty; [done|]. eapply Forall_impl; [exact Hall|]. by intros t [? _]. }
  destruct (split_spec fuel _ del true Hs Hd Hlen Hfuel) as (ts & Hts & ->).
  by rewrite (tokens_of_fields _ _ _ Hts), fields_join.
Qed.

Lemma all_in_set_check (sep set : text) :
  forallb (fun c => std.mem c set) sep = true -> forall c, c ∈ sep -> c ∈ set.
Proof.
  rewrite forallb_forall. intros H c Hc.
  by apply mem_spec, H, list_elem_of_In.
Qed.

Lemma none_in_set_check (t set : text) :
  forallb (fun c => negb (std.mem c set)) t = true -> forall c, c ∈ t -> c ∉ set.
Proof.
  rewrite forallb_forall. intros H c Hc.
  apply mem_false, negb_true_iff, H. by apply list_elem_of_In.
Qed.

Lemma clean_tokens_check (tokens : list text) (set : text) :
  forallb (fun t => negb (Nat.eqb (List.length t) 0)
                    && forallb (fun c => negb (std.mem c set)) t) tokens = true ->
  Forall (fun t => t <> [] /\ forall c, c ∈ t -> c ∉ set) tokens.
Proof.
  rewrite forallb_forall. intros H. apply Forall_forall.
  intros t Ht%list_elem_of_In. apply H in Ht.
  apply andb_true_iff in Ht as [Hne Hclean]. split.
  - intros ->. discriminate.
  - by apply none_in_set_check.
Qed.

(** X13: [split] in set mode undoes [join]: for a non-empty list of
    non-empty tokens without characters of the set, joined with a
    non-empty separator made of characters of the set, splitting the
    joined text gives the tokens back. *)
Theorem split_join_set_mode fuel (tokens : list text) (sep del : text) :
  tokens <> [] ->
  Forall (fun t => t <> [] /\ forall c, c ∈ t -> c ∉ del) tokens ->
  sep <> [] -> (forall c, c ∈ sep -> c ∈ del) ->
  std.length (string.join tokens sep) <= INT_MAX ->
  (List.length (string.join tokens sep) <= fuel)%nat ->
  string.split fuel (string.join tokens sep) del true = Ret tokens.
Proof. rewrite join_eq_spec. apply split_join_set. Qed.

Lemma split_join_set_mode_witness :
  string.split 9 (string.join [lit "ab"; lit "c"] (lit ", ")) (lit " ,") true
  = Ret [lit "ab"; lit "c"].
Proof.
  apply (split_join_set_mode 9 [lit "ab"; lit "c"] (lit ", ") (lit " ,")).
  - discriminate.
  - apply clean_tokens_check. reflexivity.
  - discriminate.
  - apply all_in_set_check. reflexivity.
  - vm_compute. discriminate.
  - vm_compute. lia.
Defined.

(** X14: with a delimiter of one character, [split] in literal mode
    undoes [join] on every non-empty list of non-empty tokens that do not
    contain that character. *)
Theorem split_join_single_char fuel (tokens : list text) (d : ascii) :
  tokens <> [] ->
  Forall (fun t => t <> [] /\ d ∉ t) tokens ->
  std.length (string.join tokens [d]) <= INT_MAX ->
  (List.length (string.join tokens [d]) <= fuel)%nat ->
  string.split fuel (string.join tokens [d]) [d] false = Ret tokens.
Proof.
  intros Hne Hall Hlen Hfuel. rewrite join_eq_spec in *.
  assert (Forall (fun t => t <> [] /\ forall c, c ∈ t -> c ∉ [d]) tokens) as Hall'.
  { eapply Forall_impl; [exact Hall|]. intros t [Ht Hd]. split; [done|].
    intros c Hc Hin. apply list_elem_of_singleton in Hin. by subst. }
  assert (join_spec tokens [d] <> []) as Hs.
  { apply join_spec_nonempty; [done|]. eapply Forall_impl; [exact Hall|]. by intros t [? _]. }
  rewrite split_unfold by done. rewrite <- split_loop_singleton.
  rewrite <- split_unfold by done.
  by apply split_join_set.
Qed.

Lemma split_join_single_char_witness :
  string.split 5 (string.join [lit "a"; lit "bc"] [","%char]) [","%char] false
  = Ret [lit "a"; lit "bc"].
Proof.
  apply (split_join_single_char 5 [lit "a"; lit "bc"] ","%char).
  - discriminate.
  - eapply Forall_impl; [apply (clean_tokens_check _ [","%char]); reflexivity|].
    intros t [Ht Hc]. split; [done|]. intros Hin. by apply (Hc _ Hin); left.
  - vm_compute. discriminate.
  - vm_compute. lia.
Defined.

(** ** More on trim *)

Lemma blank_or_not (str : text) :
  (forall c, c ∈ str -> c ∈ WHITESPACE) \/ (exists c, c ∈ str /\ c ∉ WHITESPACE).
Proof.
  destruct (std.index_where not_blank str) as [i|] eqn:Hi.
  - right. apply index_where_Some in Hi as ([c [Hc Hnb]] & _).
    exists c. split; [by eapply list_elem_of_lookup_2 | by apply not_blank_true].
  - left. rewrite index_where_None in Hi.
    intros c Hc. by apply not_blank_false, Hi.
Qed.

(** X15: [trim] throws [std::out_of_range] exactly on the texts without a
    character outside the whitespace set, the empty text among them; when
    it returns, the text it returns is never empty. *)
Theorem trim_throws_iff_blank (str : text) :
  std.length str < std.npos ->
  (string.trim str = OutOfRange <-> forall c, c ∈ str -> c ∈ WHITESPACE) /\
  (forall t, string.trim str = Ret t -> t <> []).
Proof.
  intros Hlen. split; [split|].
  - intros Hthrow. destruct (blank_or_not str) as [Hall|Hex]; [done|].
    destruct (trim_result str Hlen Hex) as (? & t & ? & ? & ? & _ & _ & _ & _ & _ & _ & _ & Hrun).
    congruence.
  - by apply trim_blank.
  - intros t Hrun. destruct (blank_or_not str) as [Hall|Hex].
    + rewrite trim_blank in Hrun by done. discriminate.
    + destruct (trim_result str Hlen Hex)
        as (? & t' & ? & c & ? & _ & _ & _ & Hh & _ & _ & _ & Hrun').
      assert (t = t') as -> by congruence. by destruct t'.
Qed.

Lemma trim_throws_iff_blank_witness :
  string.trim [" "; "009"; "010"; "013"]%char = OutOfRange.
Proof.
  apply (proj1 (trim_throws_iff_blank [" "; "009"; "010"; "013"]%char
                  ltac:(by vm_compute))).
  apply (all_in_set_check _ WHITESPACE). reflexivity.
Defined.

(** X16: whenever [trim] returns, the text is the returned text with a
    run of whitespace characters before it and another after it: nothing
    inside is touched and nothing but whitespace is dropped. *)
Theorem trim_slice (str t : text) :
  std.length str < std.npos ->
  string.trim str = Ret t ->
  exists l r, str = l ++ t ++ r /\
    (forall c, c ∈ l -> c ∈ WHITESPACE) /\
    (forall c, c ∈ r -> c ∈ WHITESPACE).
Proof.
  intros Hlen Hrun. destruct (blank_or_not str) as [Hall|Hex].
  - rewrite trim_blank in Hrun by done. discriminate.
  - destruct (trim_result str Hlen Hex)
      as (l & t' & r & ? & ? & Hstr & Hl & Hr & _ & _ & _ & _ & Hrun').
    assert (t = t') as -> by congruence. by exists l, r.
Qed.

Lemma trim_slice_witness :
  exists l r, lit " a b  " = l ++ lit "a b" ++ r /\
    (forall c, c ∈ l -> c ∈ WHITESPACE) /\
    (forall c, c ∈ r -> c ∈ WHITESPACE).
Proof.
  apply (trim_slice (lit " a b  ") (lit "a b")).
  - by vm_compute.
  - reflexivity.
Defined.

(** X17: a text whose first and last characters are outside the
    whitespace set is returned by [trim] as it is, whatever whitespace it
    has inside. *)
Theorem trim_unchanged (t : text) (c d : ascii) :
  std.length t < std.npos ->
  head t = Some c -> c ∉ WHITESPACE ->
  last t = Some d -> d ∉ WHITESPACE ->
  string.trim t = Ret t.
Proof. apply trim_fixed. Qed.

Lemma trim_unchanged_witness : string.trim (lit "a  b") = Ret (lit "a  b").
Proof.
  apply (trim_unchanged (lit "a  b") "a"%char "b"%char).
  - by vm_compute.
  - reflexivity.
  - apply mem_false. reflexivity.
  - reflexivity.
  - apply mem_false. reflexivity.
Defined.

(** X18: splitting a text in set mode on the whitespace set gives tokens
    that [trim] returns unchanged. *)
Theorem split_whitespace_trimmed fuel (str : text) :
  str <> [] ->
  std.length str <= INT_MAX -> (List.length str <= fuel)%nat ->
  exists ts, string.split fuel str WHITESPACE true = Ret ts /\
    Forall (fun t => string.trim t = Ret t) ts.
Proof.
  intros Hs Hlen Hfuel.
  destruct (split_spec fuel str WHITESPACE true Hs ltac:(done) Hlen Hfuel)
    as (ts & Hts & Hrun).
  exists ts. split; [done|].
  pose proof (tokens_of_nonempty _ _ _ _ Hts) as Hne.
  pose proof (tokens_of_clean WHITESPACE true str ts ltac:(done) Hts) as Hclean.
  rewrite Forall_forall in *. intros t Ht.
  specialize (Hne t Ht). destruct (Hclean t Ht) as [Hpiece Hno].
  apply piece_of_length in Hpiece.
  destruct t as [|c t]; [done|].
  destruct (last (c :: t)) as [d|] eqn:Hlast; [|by apply last_None in Hlast].
  apply (trim_fixed (c :: t) c d); try done.
  - zlia.
  - intros Hc. apply Hno. exists c. split; [by left | done].
  - intros Hd. apply Hno. exists d. split; [|done].
    apply last_Some in Hlast as [t' ->]. apply elem_of_app. right. by left.
Qed.

Lemma split_whitespace_trimmed_witness :
  exists ts, string.split 9 (lit "  to  be ") WHITESPACE true = Ret ts /\
    Forall (fun t => string.trim t = Ret t) ts.
Proof.
  apply (split_whitespace_trimmed 9 (lit "  to  be ")).
  - discriminate.
  - vm_compute. discriminate.
  - vm_compute. lia.
Defined.

(** ** Literal mode, and the loop without its preconditions *)

Lemma index_of_first del s p :
  del `prefix_of` drop p s -> (p <= List.length s)%nat ->
  (forall q, (q < p)%nat -> ¬ del `prefix_of` drop q s) ->
  std.index_of del s = Some p.
Proof.
  intros Hp Hle Hmin. destruct (std.index_of del s) as [p'|] eqn:Hi.
  - apply index_of_Some in Hi as (Hp' & Hle' & Hmin'). f_equal.
    destruct (Nat.lt_trichotomy p' p) as [Hlt|[->|Hgt]]; [|done|].
    + by destruct (Hmin p' Hlt).
    + by destruct (Hmin' p Hgt).
  - by destruct (index_of_None del s p Hi).
Qed.

(** X19: in literal mode one iteration ends the token where the
    delimiter first occurs as a block and resumes after the whole
    delimiter: on [pre ++ del ++ post], with no earlier occurrence, the
    remainder is [post] and [pre] is pushed when it is not empty.  Texts
    are those of at most [INT_MAX] characters. *)
Theorem split_literal_mode del pre post tokens :
  del <> [] ->
  std.length (pre ++ del ++ post) <= INT_MAX ->
  (forall q, (q < List.length pre)%nat ->
     ¬ del `prefix_of` drop q (pre ++ del ++ post)) ->
  string.split_step del false (pre ++ del ++ post, tokens)
    = Ret (post, push pre tokens) /\
  forall fuel,
    string.split_loop (S fuel) del false (pre ++ del ++ post, tokens)
    = string.split_loop fuel del false (post, push pre tokens).
Proof.
  intros Hd Hlen Hmin.
  assert (string.split_step del false (pre ++ del ++ post, tokens)
          = Ret (post, push pre tokens)) as Hstep.
  { rewrite split_step_spec by done. simpl.
    rewrite (index_of_first del _ (List.length pre)); try done.
    - rewrite take_app_length. rewrite <- drop_drop, drop_app_length.
      by rewrite drop_app_length.
    - rewrite drop_app_length. by eexists.
    - rewrite length_app. lia. }
  split; [done|]. intros fuel.
  rewrite split_loop_cons by (destruct pre, del; done). by rewrite Hstep.
Qed.

Lemma split_literal_mode_witness :
  string.split_step (lit "--") false (lit "a-b" ++ lit "--" ++ lit "c", [])
  = Ret (lit "c", [lit "a-b"]).
Proof.
  refine (proj1 (split_literal_mode (lit "--") (lit "a-b") (lit "c") [] _ _ _)).
  - discriminate.
  - vm_compute. discriminate.
  - intros q Hq. apply starts_with_false.
    destruct q as [|[|[|q]]]; [reflexivity..|simpl in Hq; lia].
Defined.

(** X20: what the second assertion of [split] keeps away.  Run on the
    empty delimiter, an iteration in literal mode finds a match at
    position 0 and consumes nothing, so the loop leaves every budget
    unused on a non-empty text; in set mode nothing matches and the
    whole text is the only token.  This holds for a text of any length
    ([< npos] only says that the length is a [size_t]). *)
Theorem split_loop_empty_delimiter (str : text) (tokens : list text) :
  str <> [] -> std.length str < std.npos ->
  string.split_step [] false (str, tokens) = Ret (str, tokens) /\
  (forall fuel, string.split_loop fuel [] false (str, tokens) = OutOfFuel) /\
  (forall fuel, string.split_loop (S fuel) [] true (str, tokens) = Ret (tokens ++ [str])).
Proof.
  intros Hs Hlen.
  assert (string.split_step [] false (str, tokens) = Ret (str, tokens)) as Hstep.
  { rewrite (split_step_at [] false str tokens 0); [done..| |zlia]; by destruct str. }
  split; [done|]. split.
  - induction fuel as [|fuel IH].
    + simpl. destruct (Z.ltb_spec 0 (std.length str)) as [_|?]; [done|].
      destruct str; [done | zlia].
    + rewrite split_loop_cons by done. by rewrite Hstep.
  - intros fuel. rewrite split_loop_cons by done.
    rewrite split_step_none by (by apply index_where_None).
    cbn [mbind outcome_bind]. rewrite split_loop_nil. by destruct str.
Qed.

Lemma split_loop_empty_delimiter_witness :
  string.split_loop 1000 [] false (lit "abc", []) = OutOfFuel.
Proof.
  refine (proj1 (proj2 (split_loop_empty_delimiter (lit "abc") [] _ _)) 1000%nat).
  - discriminate.
  - by vm_compute.
Defined.

(** ** Texts longer than [INT_MAX]

    The loop of [split] keeps the position of the match, a [size_t], in an
    [int].  On a text with a match past [INT_MAX] the [int] holds another
    number, and the three computations below show what the loop makes of
    it.  The texts are [n] copies of one character followed by two more
    characters, for the [n] the statement names. *)

Lemma split_step_found del multiple str tokens p found :
  next_match del multiple str = Some p ->
  int_of_size (Z.of_nat p) = found -> found <> -1 ->
  string.split_step del multiple (str, tokens) =
  token ← std.substr str 0 (size_of_int found);
  str' ← std.substr str
           (size_wrap (size_of_int found + Z.of_nat (consumed del multiple)))
           std.npos;
  Ret (str', push token tokens).
Proof.
  intros Hm Hf Hne. unfold string.split_step.
  replace (if multiple then std.find_first_of str del else std.find str del)
    with (std.pos_or_npos (next_match del multiple str))
    by by destruct multiple.
  rewrite Hm. cbn [std.pos_or_npos]. rewrite Hf.
  destruct (Z.eqb_spec found (-1)) as [?|_]; [done|].
  replace (if multiple then 1 else std.length del)
    with (Z.of_nat (consumed del multiple)) by by destruct multiple.
  destruct (std.substr str 0 (size_of_int found)) as [token| | |]; simpl; try done.
  destruct (std.substr str _ std.npos) as [str'| | |]; simpl; try done.
  by rewrite push_test.
Qed.

Lemma split_step_missed del multiple str tokens p :
  next_match del multiple str = Some p ->
  int_of_size (Z.of_nat p) = -1 ->
  string.split_step del multiple (str, tokens) = Ret ([], push str tokens).
Proof.
  intros Hm Hf. unfold string.split_step.
  replace (if multiple then std.find_first_of str del else std.find str del)
    with (std.pos_or_npos (next_match del multiple str))
    by by destruct multiple.
  rewrite Hm. cbn [std.pos_or_npos]. rewrite Hf. simpl. by rewrite push_test.
Qed.

Lemma substr_whole (s : text) count :
  std.length s <= count -> std.substr s 0 count = Ret s.
Proof.
  intros Hc. unfold std.substr.
  destruct (Z.ltb_spec (std.length s) 0) as [?|_]; [zlia|].
  rewrite drop_0. f_equal. apply take_ge. zlia.
Qed.


Lemma run_length (n : nat) (c : ascii) (tail : text) :
  std.length (replicate n c ++ tail) = Z.of_nat n + std.length tail.
Proof. unfold std.length. rewrite length_app, length_replicate. lia. Qed.

Lemma run_index_where (n : nat) (c d : ascii) (set tail : text) :
  std.mem c set = false -> std.mem d set = true ->
  std.index_where (fun x => std.mem x set) (replicate n c ++ d :: tail) = Some n.
Proof.
  intros Hc Hd. rewrite index_where_app; [by rewrite length_replicate| |done].
  by intros x [-> _]%elem_of_replicate.
Qed.

Lemma run_index_of (n : nat) (c d : ascii) (del tail : text) :
  c <> d ->
  std.index_of (d :: del) (replicate n c ++ d :: del ++ tail) = Some n.
Proof.
  intros Hcd. apply index_of_first.
  - rewrite drop_app_length'; [by eexists | by rewrite length_replicate].
  - rewrite length_app, length_replicate. lia.
  - intros q Hq [k Hk]. apply (f_equal (fun l => l !! 0%nat)) in Hk.
    rewrite lookup_drop, Nat.add_0_r in Hk.
    rewrite lookup_app_l in Hk by (by rewrite length_replicate).
    rewrite lookup_replicate_2 in Hk by done. simpl in Hk. congruence.
Qed.

(** Set mode, first match at position [2^32]: the [int] reads 0, the
    iteration takes an empty token and moves one character on; the match
    is then at [2^32 - 1], which reads as not found. *)
Lemma set_mode_past_int (n fuel : nat) :
  Z.of_nat n = 2 ^ 32 ->
  string.split (S (S fuel)) (replicate n "a"%char ++ lit ",b") (lit ",") true
  = Ret [replicate (n - 1) "a"%char ++ lit ",b"].
Proof.
  intros Hn. destruct n as [|m]; [done|].
  replace (S m - 1)%nat with m by lia.
  assert (Z.of_nat m = 2 ^ 32 - 1) as Hm by lia.
  set (str1 := replicate m "a"%char ++ lit ",b").
  assert (replicate (S m) "a"%char ++ lit ",b" = "a"%char :: str1) as -> by done.
  assert (std.length str1 = 2 ^ 32 + 1) as Hlen1
    by (unfold str1; rewrite run_length, Hm; done).
  assert (std.length ("a"%char :: str1) = 2 ^ 32 + 2) as Hlen0
    by (unfold std.length in *; simpl List.length; lia).
  assert (str1 <> []) as Hne1 by (intros H; rewrite H in Hlen1; done).
  rewrite split_unfold by done.
  rewrite split_loop_cons by done.
  rewrite (split_step_found _ _ _ _ (S m) 0); cycle 1.
  { apply (run_index_where (S m) "a" "," (lit ",") (lit "b")); reflexivity. }
  { by rewrite Hn. }
  { done. }
  change (size_of_int 0) with (Z.of_nat 0).
  rewrite substr_prefix by (simpl; lia).
  cbn [mbind outcome_bind]. rewrite take_0.
  change (size_wrap (Z.of_nat 0 + Z.of_nat (consumed (lit ",") true))) with (Z.of_nat 1).
  rewrite substr_suffix by (unfold SIZE_MAX; simpl List.length; lia).
  cbn [mbind outcome_bind push drop].
  rewrite split_loop_cons by done.
  rewrite (split_step_missed _ _ _ _ m); cycle 1.
  { apply (run_index_where m "a" "," (lit ",") (lit "b")); reflexivity. }
  { by rewrite Hm. }
  cbn [mbind outcome_bind]. rewrite split_loop_nil.
  by destruct str1.
Qed.

(** Literal mode, match of a two-character delimiter at [2^32 - 2]: the
    [int] reads -2, the count of the first [substr] is then larger than the
    text and the sum in the second wraps to 0, so the iteration pushes the
    whole text and leaves it as the remainder. *)
Lemma literal_mode_past_int (n : nat) :
  Z.of_nat n = 2 ^ 32 - 2 ->
  (forall tokens,
     string.split_step (lit "bb") false (replicate n "a"%char ++ lit "bb", tokens)
     = Ret (replicate n "a"%char ++ lit "bb",
            tokens ++ [replicate n "a"%char ++ lit "bb"])) /\
  (forall fuel,
     string.split fuel (replicate n "a"%char ++ lit "bb") (lit "bb") false = OutOfFuel).
Proof.
  intros Hn. set (str := replicate n "a"%char ++ lit "bb").
  assert (std.length str = 2 ^ 32) as Hlen
    by (unfold str; rewrite run_length, Hn; done).
  assert (str <> []) as Hne by (intros H; rewrite H in Hlen; done).
  assert (forall tokens,
            string.split_step (lit "bb") false (str, tokens) = Ret (str, tokens ++ [str]))
    as Hstep.
  { intros tokens. rewrite (split_step_found _ _ _ _ n (-2)); cycle 1.
    { apply (run_index_of n "a" "b" (lit "b") []). done. }
    { by rewrite Hn. }
    { done. }
    change (size_wrap (size_of_int (-2) + Z.of_nat (consumed (lit "bb") false)))
      with 0.
    rewrite (substr_whole str (size_of_int (-2))) by (rewrite Hlen; done).
    cbn [mbind outcome_bind].
    rewrite (substr_whole str std.npos) by (rewrite Hlen; done).
    cbn [mbind outcome_bind]. by destruct str. }
  split; [done|]. intros fuel. rewrite split_unfold by done.
  generalize (@nil text). induction fuel as [|fuel IH]; intros tokens.
  - simpl. rewrite Hlen. done.
  - rewrite split_loop_cons, Hstep by done. apply IH.
Qed.




(** C2, past the range of [int]: on 2^32 copies of "a" followed by ",b",
    split in set mode on "," returns one token, the text without its first
    character, and that token contains the delimiter: it does not end at
    the first character of the set. *)
Theorem split_set_mode_past_int_max (fuel : nat) :
  string.split (S (S fuel))
    (replicate (Z.to_nat (2 ^ 32)) "a"%char ++ lit ",b") (lit ",") true
  = Ret [replicate (Z.to_nat (2 ^ 32) - 1) "a"%char ++ lit ",b"] /\
  ","%char ∈ replicate (Z.to_nat (2 ^ 32) - 1) "a"%char ++ lit ",b".
Proof.
  split.
  - exact (set_mode_past_int (Z.to_nat (2 ^ 32)) fuel (Z2Nat.id (2 ^ 32) ltac:(lia))).
  - apply elem_of_app. right. apply list_elem_of_here.
Qed.

(** C8, past the range of [int]: on 2^32 - 2 copies of "a" followed by
    "bb", with the delimiter "bb" in literal mode, an iteration of the loop
    returns the text it was given as the remainder, one token longer, and
    the call uses up every budget: the loop does not come to an end. *)
Theorem split_no_progress_past_int_max :
  (forall tokens,
     string.split_step (lit "bb") false
       (replicate (Z.to_nat (2 ^ 32 - 2)) "a"%char ++ lit "bb", tokens)
     = Ret (replicate (Z.to_nat (2 ^ 32 - 2)) "a"%char ++ lit "bb",
            tokens ++ [replicate (Z.to_nat (2 ^ 32 - 2)) "a"%char ++ lit "bb"])) /\
  (forall fuel,
     string.split fuel
       (replicate (Z.to_nat (2 ^ 32 - 2)) "a"%char ++ lit "bb") (lit "bb") false
     = OutOfFuel).
Proof.
  exact (literal_mode_past_int (Z.to_nat (2 ^ 32 - 2))
           (Z2Nat.id (2 ^ 32 - 2) ltac:(lia))).
Qed.

